(** * LinkedList.ts: a singly-linked list with node-level operations

    A shallow embedding of [src/LinkedList.ts].  Node objects live in a
    store indexed by their identity; the list object holds the [head]
    reference.  Every method is a computation in a small state-and-exception
    monad; [while] loops take a bound on the number of iterations. *)

From stdpp Require Import gmap strings list fin_maps pretty.

Local Open Scope Z_scope.

(** ** The object store *)

(** The identity of a [Node] object. *)
Definition loc := positive.

Section Model.
Context {T : Type} `{EqDecision T}.

(** [class Node<T> { value: T; next: Node<T> | null }] *)
Record Node := mkNode { value : T; next : option loc }.

(** The [LinkedList] object ([head]) together with the node objects. *)
Record Store := mkStore { head : option loc; heap : gmap loc Node }.

(** What a JavaScript call may raise here: [new Error(message)], or the
    [TypeError] of reading a property of [null]. *)
Inductive exn := Error (message : string) | TypeError.

(** The result of running a method.  [OutOfFuel]: a loop used up its
    iteration bound.  [Dangling]: a reference to an object that is not in
    the store (no JavaScript program can build one). *)
Inductive outcome (A : Type) :=
| Return (a : A) (s : Store)
| Throw (e : exn) (s : Store)
| OutOfFuel
| Dangling.
Global Arguments Return {A} a s.
Global Arguments Throw {A} e s.
Global Arguments OutOfFuel {A}.
Global Arguments Dangling {A}.

Definition M (A : Type) : Type := Store → outcome A.

Definition ret {A} (a : A) : M A := λ s, Return a s.

Definition bind {A B} (m : M A) (k : A → M B) : M B := λ s,
  match m s with
  | Return a s' => k a s'
  | Throw e s' => Throw e s'
  | OutOfFuel => OutOfFuel
  | Dangling => Dangling
  end.

Definition throw {A} (e : exn) : M A := λ s, Throw e s.

Definition timeout {A} : M A := λ _, OutOfFuel.

Local Notation "'let!' x ':=' m 'in' k" := (bind m (λ x, k))
  (at level 10, x pattern, m at level 100, k at level 200).
Local Notation "m ';;' k" := (bind m (λ _, k))
  (at level 100, k at level 200, right associativity).

(** [this.head] *)
Definition get_head : M (option loc) := λ s, Return (head s) s.

(** [this.head = r] *)
Definition set_head (r : option loc) : M unit := λ s,
  Return () (mkStore r (heap s)).

(** [n.next] *)
Definition get_next (n : loc) : M (option loc) := λ s,
  match heap s !! n with
  | Some nd => Return (next nd) s
  | None => Dangling
  end.

(** [n.value] *)
Definition get_value (n : loc) : M T := λ s,
  match heap s !! n with
  | Some nd => Return (value nd) s
  | None => Dangling
  end.

(** The store after [n.next = r]. *)
Definition with_next (n : loc) (r : option loc) (h : gmap loc Node) : gmap loc Node :=
  alter (λ nd, mkNode (value nd) r) n h.

(** [n.next = r] *)
Definition set_next (n : loc) (r : option loc) : M unit := λ s,
  match heap s !! n with
  | Some _ => Return () (mkStore (head s) (with_next n r (heap s)))
  | None => Dangling
  end.

(** ** The methods *)

(** The loop of [remove]: [currentNode] walks from the head with
    [previousNode] one step behind; on reaching [node] it is unlinked and
    the loop is left. *)
Fixpoint remove_scan (fuel : nat) (node : loc) (currentNode previousNode : option loc) : M unit :=
  match fuel with
  | O => timeout
  | S fuel' =>
    match currentNode with
    | None => ret ()
    | Some c =>
      if decide (c = node) then
        let! after := get_next c in
        match previousNode with
        | Some p => set_next p after
        | None => set_head after
        end
      else
        let! after := get_next c in
        remove_scan fuel' node after (Some c)
    end
  end.

Definition remove (fuel : nat) (node : loc) : M unit :=
  let! currentNode := get_head in
  remove_scan fuel node currentNode None ;;
  set_next node None.

Definition setHead (fuel : nat) (node : loc) : M unit :=
  let! h := get_head in
  match h with
  | None => set_head (Some node)
  | Some _ =>
    remove fuel node ;;
    let! h' := get_head in
    set_next node h' ;;
    set_head (Some node)
  end.

Definition insertAfter (fuel : nat) (existingNode nodeToInsert : loc) : M unit :=
  if decide (existingNode = nodeToInsert) then ret ()
  else
    remove fuel nodeToInsert ;;
    let! after := get_next existingNode in
    set_next nodeToInsert after ;;
    set_next existingNode (Some nodeToInsert).

(** *** Numbers in a template literal

    A JavaScript number is a double.  A template literal prints it with
    [Number::toString]: the shortest decimal digits that read back as the
    same double, in plain notation below [10^21] and in exponent notation
    from there on.  The numbers of this file are integers; an integer that
    is not a double stands for the nearest one, and for [Infinity] when it
    is too large for a finite double. *)

(** The double nearest to a natural number, ties to the even significand
    (of 53 bits). *)
Definition nearest_double (z : Z) : Z :=
  if decide (z < 2 ^ 53) then z
  else
    let e := Z.log2 z - 52 in
    let q := z ≫ e in
    let r := z `mod` 2 ^ e in
    let half := 2 ^ (e - 1) in
    let q' :=
      if decide (half < r ∨ (r = half ∧ Z.odd q = true)) then q + 1 else q in
    q' ≪ e.

Definition decimal_digits (z : Z) : string := pretty (Z.to_N z).

(** For the double [v] of [n] decimal digits: the [k] digits [s], with the
    number [n'] of digits before the decimal point, for which [s * 10^(n'-k)]
    reads back as [v] and is closest to [v], if there are such digits.  Only
    the two neighbours of [v] among the multiples of [10^(n-k)] can be; the
    upper one may be [10^n], of one digit more. *)
Definition digits_of_length (v n k : Z) : option (Z * Z) :=
  let p := 10 ^ (n - k) in
  let lo := v `div` p in
  let hi := lo + 1 in
  let below := (lo, n) in
  let above := if decide (hi = 10 ^ k) then (10 ^ (k - 1), n + 1) else (hi, n) in
  match bool_decide (nearest_double (lo * p) = v),
        bool_decide (nearest_double (hi * p) = v) with
  | true, true =>
      if decide (v - lo * p < hi * p - v) then Some below
      else if decide (hi * p - v < v - lo * p) then Some above
      else Some (if Z.even lo then below else above)
  | true, false => Some below
  | false, true => Some above
  | false, false => None
  end.

(** The least [k] that has such digits, from [k] upwards: [(s, k, n')]. *)
Fixpoint shortest_digits (v n : Z) (tries : nat) (k : Z) : Z * Z * Z :=
  match tries with
  | O => (v, n, n)
  | S tries' =>
    match digits_of_length v n k with
    | Some (s, n') => (s, k, n')
    | None => shortest_digits v n tries' (k + 1)
    end
  end.

Fixpoint zeros (m : nat) : string :=
  match m with
  | O => ""
  | S m' => "0" +:+ zeros m'
  end.

(** [Number::toString] of a positive integer: the digits and then zeros up
    to 21 digits, and from 22 digits on the first digit, the other digits
    behind a point if there are any, and the exponent.  From half a step
    above the largest double on, the number is [Infinity]. *)
Definition positive_to_string (x : Z) : string :=
  let v := nearest_double x in
  let digits := Z.of_nat (String.length (decimal_digits v)) in
  let '(s, k, n) := shortest_digits v digits (Z.to_nat digits) 1 in
  if decide (2 ^ 1024 - 2 ^ 970 ≤ x) then "Infinity"
  else if decide (n ≤ 21) then decimal_digits s +:+ zeros (Z.to_nat (n - k))
  else
    match decimal_digits s with
    | String d EmptyString => String d ("e+" +:+ decimal_digits (n - 1))
    | String d more =>
        String d ("." +:+ more +:+ "e+" +:+ decimal_digits (n - 1))
    | EmptyString => ""
    end.

Definition number_to_string (z : Z) : string :=
  if decide (z = 0) then "0"
  else if decide (z < 0) then "-" +:+ positive_to_string (- z)
  else positive_to_string z.

(** The text of the error of [insertAtPosition]: the template literal with
    [position] and [i] printed as numbers. *)
Definition range_message (position i : Z) : string :=
  "The position " +:+ number_to_string position +:+
  " extends beyond the end of the list (which is currently " +:+
  number_to_string i +:+ ").".

(** The loop of [insertAtPosition]; it yields [previousNode].  The read
    [currentNode.next] is not guarded by the type checker (ts-ignore): on
    [null] it raises a [TypeError]. *)
Fixpoint insertAtPosition_scan (fuel : nat) (position : Z)
    (currentNode previousNode : option loc) (i : Z) : M (option loc) :=
  match fuel with
  | O => timeout
  | S fuel' =>
    if decide (i < position) then
      match currentNode with
      | None => throw TypeError
      | Some c =>
        let! after := get_next c in
        let i' := i + 1 in
        if decide (after = None ∧ position > i') then
          throw (Error (range_message position i'))
        else insertAtPosition_scan fuel' position after (Some c) i'
      end
    else ret previousNode
  end.

Definition insertAtPosition (fuel : nat) (position : Z) (nodeToInsert : loc) : M unit :=
  remove fuel nodeToInsert ;;
  let! currentNode := get_head in
  let! previousNode := insertAtPosition_scan fuel position currentNode None 1 in
  match previousNode with
  | None => setHead fuel nodeToInsert
  | Some p => insertAfter fuel p nodeToInsert
  end.

(** The loop of [removeNodesWithValue]: the successor is read before the
    node is possibly removed. *)
Fixpoint removeNodesWithValue_scan (fuel steps : nat) (v : T) (node : option loc) : M unit :=
  match steps with
  | O => timeout
  | S steps' =>
    match node with
    | None => ret ()
    | Some n =>
      let! nextNode := get_next n in
      let! x := get_value n in
      (if decide (x = v) then remove fuel n else ret ()) ;;
      removeNodesWithValue_scan fuel steps' v nextNode
    end
  end.

Definition removeNodesWithValue (fuel : nat) (v : T) : M unit :=
  let! node := get_head in
  removeNodesWithValue_scan fuel fuel v node.

Fixpoint containsNodeWithValue_scan (fuel : nat) (v : T) (node : option loc) : M bool :=
  match fuel with
  | O => timeout
  | S fuel' =>
    match node with
    | None => ret false
    | Some n =>
      let! x := get_value n in
      if decide (x = v) then ret true
      else
        let! after := get_next n in
        containsNodeWithValue_scan fuel' v after
    end
  end.

Definition containsNodeWithValue (fuel : nat) (v : T) : M bool :=
  let! node := get_head in
  containsNodeWithValue_scan fuel v node.

(** [Array.prototype.join] on an array of strings. *)
Fixpoint join (sep : string) (xs : list string) : string :=
  match xs with
  | [] => ""
  | [x] => x
  | x :: rest => x +:+ sep +:+ join sep rest
  end.

Section ToString.
(** The conversion of a value to a string that [join] applies to each
    element. *)
Variable show : T → string.

(** The loop of [toString]; [result] collects the values ([push]). *)
Fixpoint toString_scan (fuel : nat) (result : list T) (node : option loc) : M (list T) :=
  match fuel with
  | O => timeout
  | S fuel' =>
    match node with
    | None => ret result
    | Some n =>
      let! x := get_value n in
      let! after := get_next n in
      toString_scan fuel' (result ++ [x]) after
    end
  end.

Definition toString (fuel : nat) : M string :=
  let! node := get_head in
  let! result := toString_scan fuel [] node in
  ret (join " -> " (show <$> result)).
End ToString.

(** The [for] loop of the constructor: [remaining] is [nodes.length - i]. *)
Fixpoint constructor_loop (fuel : nat) (nodes : list loc) (remaining : nat) (i : nat) : M unit :=
  match remaining with
  | O => ret ()
  | S remaining' =>
    let! h := get_head in
    match h with
    | None => ret ()
    | Some _ =>
      match nodes !! (i - 1)%nat, nodes !! i with
      | Some a, Some b =>
        insertAfter fuel a b ;;
        constructor_loop fuel nodes remaining' (S i)
      | _, _ => λ _, Dangling
      end
    end
  end.

(** [new LinkedList(...nodes)], run on the store of a fresh list object
    ([head] is [null]). *)
Definition constructor (fuel : nat) (nodes : list loc) : M unit :=
  match nodes with
  | [] => ret ()
  | first :: _ =>
    setHead fuel first ;;
    constructor_loop fuel nodes (length nodes - 1)%nat 1%nat
  end.

(** The node before the one found by the scan of [remove]: the last of the
    nodes [a] walked over, or else the initial [previousNode]. *)
Definition scan_previous (prev : option loc) (a : list loc) : option loc :=
  match last a with
  | Some k => Some k
  | None => prev
  end.

(** ** Well-formed lists *)

(** [lseg h p q ns]: following [next] from [p] visits exactly the nodes
    [ns], in this order, and arrives at [q]. *)
Fixpoint lseg (h : gmap loc Node) (p q : option loc) (ns : list loc) : Prop :=
  match ns with
  | [] => p = q
  | n :: ns' => p = Some n ∧ ∃ nd, h !! n = Some nd ∧ lseg h (next nd) q ns'
  end.

(** The list of the store is well formed and its forward traversal visits
    [ns]: the chain from [head] ends in [null]. *)
Definition is_list (s : Store) (ns : list loc) : Prop :=
  lseg (heap s) (head s) None ns.

(** [n] is reached from [p] by following [next] links. *)
Inductive reachable (h : gmap loc Node) : option loc → loc → Prop :=
| reachable_here n : reachable h (Some n) n
| reachable_next n nd m :
    h !! n = Some nd → reachable h (next nd) m → reachable h (Some n) m.

(** [n.next], when [n] is a node of the store. *)
Definition next_at (h : gmap loc Node) (n : loc) : option (option loc) :=
  next <$> h !! n.

(** [n.value], when [n] is a node of the store. *)
Definition value_at (h : gmap loc Node) (n : loc) : option T :=
  value <$> h !! n.

(** A node of the store whose [next] is [null]. *)
Definition detached (h : gmap loc Node) (n : loc) : Prop :=
  next_at h n = Some None.

(** The values of the nodes [ns], in order. *)
Definition values_of (h : gmap loc Node) (ns : list loc) : list T :=
  omap (value_at h) ns.

(** ** Programs that call the methods *)

(** A call of one of the methods that change the list. *)
Inductive call :=
| SetHead (node : loc)
| InsertAfter (existingNode nodeToInsert : loc)
| InsertAtPosition (position : Z) (nodeToInsert : loc)
| Remove (node : loc)
| RemoveNodesWithValue (v : T).

Definition run_call (fuel : nat) (c : call) : M unit :=
  match c with
  | SetHead node => setHead fuel node
  | InsertAfter existingNode nodeToInsert =>
      insertAfter fuel existingNode nodeToInsert
  | InsertAtPosition position nodeToInsert =>
      insertAtPosition fuel position nodeToInsert
  | Remove node => remove fuel node
  | RemoveNodesWithValue v => removeNodesWithValue fuel v
  end.

(** What a call asks of its arguments: they are nodes of the store, and
    [insertAfter] is called behind a node of the list. *)
Definition call_ok (s : Store) (c : call) : Prop :=
  match c with
  | SetHead n | InsertAtPosition _ n | Remove n => is_Some (heap s !! n)
  | InsertAfter e n => reachable (heap s) (head s) e ∧ is_Some (heap s !! n)
  | RemoveNodesWithValue _ => True
  end.

(** The store is tidy: the chain from the head is the well-formed list
    [ns], and every node that is not in it is detached. *)
Definition tidy_with (s : Store) (ns : list loc) : Prop :=
  is_list s ns ∧ map_Forall (λ m nd, m ∉ ns → next nd = None) (heap s).

Definition tidy (s : Store) : Prop := ∃ ns, tidy_with s ns.

(** The store after a program has made the calls [cs] one after the other,
    going on after a call that threw (as after a [catch]). *)
Inductive after_calls (fuel : nat) : Store → list call → Store → Prop :=
| after_no_call s : after_calls fuel s [] s
| after_return s c cs s1 s2 :
    call_ok s c → run_call fuel c s = Return () s1 →
    after_calls fuel s1 cs s2 → after_calls fuel s (c :: cs) s2
| after_throw s c cs e s1 s2 :
    call_ok s c → run_call fuel c s = Throw e s1 →
    after_calls fuel s1 cs s2 → after_calls fuel s (c :: cs) s2.

End Model.

Global Arguments Node : clear implicits.
Global Arguments Store : clear implicits.
Global Arguments outcome : clear implicits.
Global Arguments call : clear implicits.

(** ** The stores of the test suite *)

Definition foo : loc := 1%positive.
Definition bar : loc := 2%positive.
Definition baz : loc := 3%positive.
Definition qux : loc := 4%positive.
Definition quux : loc := 5%positive.

(** Five nodes as [beforeEach] creates them: [new Node('foo')], ... *)
Definition fresh_nodes : gmap loc (Node string) :=
  list_to_map [(foo, mkNode "foo" None); (bar, mkNode "bar" None);
               (baz, mkNode "baz" None); (qux, mkNode "qux" None);
               (quux, mkNode "quux" None)].

(** [new LinkedList()] *)
Definition empty_list : Store string := mkStore None fresh_nodes.

(** [new LinkedList(foo, bar, baz)]; [qux] and [quux] are detached. *)
Definition list_foo_bar_baz : Store string :=
  mkStore (Some foo)
    (list_to_map [(foo, mkNode "foo" (Some bar)); (bar, mkNode "bar" (Some baz));
                  (baz, mkNode "baz" None); (qux, mkNode "qux" None);
                  (quux, mkNode "quux" None)]).

(** [new LinkedList(foo, bar, baz, qux)]; [quux] is detached. *)
Definition list_foo_bar_baz_qux : Store string :=
  mkStore (Some foo)
    (list_to_map [(foo, mkNode "foo" (Some bar)); (bar, mkNode "bar" (Some baz));
                  (baz, mkNode "baz" (Some qux)); (qux, mkNode "qux" None);
                  (quux, mkNode "quux" None)]).

(** A list in which two nodes carry the value of [bar]. *)
Definition list_with_two_bar : Store string :=
  mkStore (Some foo)
    (list_to_map [(foo, mkNode "foo" (Some bar)); (bar, mkNode "bar" (Some baz));
                  (baz, mkNode "bar" (Some qux)); (qux, mkNode "qux" None);
                  (quux, mkNode "quux" None)]).

(** [new LinkedList(foo)] *)
Definition list_foo : Store string :=
  mkStore (Some foo)
    (list_to_map [(foo, mkNode "foo" None); (bar, mkNode "bar" None)]).

(** A chain that runs in a circle: [foo.next] is [bar] and [bar.next] is
    [foo]. *)
Definition list_in_a_circle : Store string :=
  mkStore (Some foo)
    (list_to_map [(foo, mkNode "foo" (Some bar)); (bar, mkNode "bar" (Some foo))]).

(** Solves [is_list s ns] on a closed store by following the links. *)
Ltac list_shape :=
  unfold is_list; simpl; repeat first [reflexivity | split | eexists].

(** * Properties *)

Section Theory.
Context {T : Type} `{EqDecision T}.
Implicit Types (h : gmap loc (Node T)) (s : Store T) (n m e : loc).
Implicit Types (ns : list loc) (p q : option loc).

(** ** Updating a [next] field *)

Lemma lookup_with_next_eq h n r nd :
  h !! n = Some nd → with_next n r h !! n = Some (mkNode (value nd) r).
Proof. intros Hn. unfold with_next. by rewrite lookup_alter_eq, Hn. Qed.

Lemma lookup_with_next_ne h n m r : n ≠ m → with_next n r h !! m = h !! m.
Proof. intros Hne. unfold with_next. by rewrite lookup_alter_ne. Qed.

Lemma value_at_with_next h n m r : value_at (with_next n r h) m = value_at h m.
Proof.
  unfold value_at. destruct (decide (n = m)) as [->|Hne].
  - destruct (h !! m) as [nd|] eqn:Hm.
    + by rewrite (lookup_with_next_eq _ _ _ nd).
    + unfold with_next. by rewrite lookup_alter_eq, Hm.
  - by rewrite lookup_with_next_ne.
Qed.

Lemma with_next_id h n nd : h !! n = Some nd → with_next n (next nd) h = h.
Proof.
  intros Hn. apply map_eq. intros m. destruct (decide (n = m)) as [<-|Hne].
  - rewrite (lookup_with_next_eq _ _ _ nd), Hn by done. by destruct nd.
  - by rewrite lookup_with_next_ne.
Qed.

(** ** List segments *)

Lemma lseg_app h p q a b :
  lseg h p q (a ++ b) ↔ ∃ r, lseg h p r a ∧ lseg h r q b.
Proof.
  revert p. induction a as [|n a IH]; intros p; simpl.
  - split; [by exists p | by intros (r & -> & Hb)].
  - split.
    + intros (-> & nd & Hn & Hr). apply IH in Hr as (r & Ha & Hb).
      exists r. eauto 6.
    + intros (r & (-> & nd & Hn & Ha) & Hb). split; [done|].
      exists nd. split; [done|]. apply IH. eauto.
Qed.

Lemma lseg_start h p ns : lseg h p None ns → p = hd_error ns.
Proof. destruct ns; simpl; [done | by intros [-> _]]. Qed.

Lemma lseg_frame h h' p q ns :
  (∀ n, n ∈ ns → h' !! n = h !! n) → lseg h p q ns → lseg h' p q ns.
Proof.
  revert p. induction ns as [|n ns IH]; intros p Hsame; simpl; [done|].
  intros (-> & nd & Hn & Hr). split; [done|]. exists nd. split.
  - rewrite Hsame; [done | left].
  - apply IH; [|done]. intros m Hm. apply Hsame. by right.
Qed.

Lemma lseg_alloc h p q ns n : lseg h p q ns → n ∈ ns → is_Some (h !! n).
Proof.
  revert p. induction ns as [|m ns IH]; intros p; simpl.
  - intros _ Hin. by apply elem_of_nil in Hin.
  - intros (-> & nd & Hm & Hr) [->|Hin]%elem_of_cons; eauto.
Qed.

Lemma lseg_inj h p a b : lseg h p None a → lseg h p None b → a = b.
Proof.
  revert p b. induction a as [|n a IH]; intros p [|m b]; simpl.
  - done.
  - by intros -> [? _].
  - by intros [-> _] ?.
  - intros (-> & nd & Hn & Ha) (Heq & nd' & Hm & Hb).
    injection Heq as <-. rewrite Hn in Hm. injection Hm as <-.
    f_equal. eauto.
Qed.

Lemma lseg_NoDup h p ns : lseg h p None ns → NoDup ns.
Proof.
  revert p. induction ns as [|n ns IH]; intros p; simpl; [constructor|].
  intros (-> & nd & Hn & Hr). constructor; [|eauto].
  intros (a & b & ->)%list_elem_of_split.
  pose proof Hr as Hr'. apply lseg_app in Hr' as (r & _ & Hb).
  pose proof Hb as [-> _].
  assert (lseg h (Some n) None (n :: a ++ n :: b)) as Hfull.
  { simpl. eauto. }
  pose proof (lseg_inj _ _ _ _ Hfull Hb) as Heq.
  apply (f_equal length) in Heq. simpl in Heq. rewrite length_app in Heq.
  simpl in Heq. lia.
Qed.

Lemma reachable_lseg h p ns n : lseg h p None ns → reachable h p n ↔ n ∈ ns.
Proof.
  intros Hl. split.
  - intros Hr. revert ns Hl. induction Hr as [n|n nd m Hn Hr IH]; intros ns Hl.
    + destruct ns as [|k ns]; simpl in Hl; [done|].
      destruct Hl as [[= <-] _]. left.
    + destruct ns as [|k ns]; simpl in Hl; [done|].
      destruct Hl as ([= <-] & nd' & Hn' & Hl). rewrite Hn in Hn'.
      injection Hn' as <-. right. eauto.
  - revert p Hl. induction ns as [|k ns IH]; intros p; simpl.
    + intros _ Hin. by apply elem_of_nil in Hin.
    + intros (-> & nd & Hk & Hl) [->|Hin]%elem_of_cons; [constructor|].
      eapply reachable_next; eauto.
Qed.

Lemma lseg_with_next h p q ns n r :
  n ∉ ns → lseg h p q ns → lseg (with_next n r h) p q ns.
Proof.
  intros Hn. apply lseg_frame. intros m Hm. apply lookup_with_next_ne.
  by intros ->.
Qed.

(** ** [remove] *)

Lemma scan_previous_cons prev k a :
  scan_previous prev (k :: a) = scan_previous (Some k) a.
Proof. unfold scan_previous. rewrite last_cons. by destruct (last a). Qed.

Lemma remove_scan_absent fuel node s rest cur prev :
  lseg (heap s) cur None rest → node ∉ rest → (length rest < fuel)%nat →
  remove_scan fuel node cur prev s = Return () s.
Proof.
  revert fuel cur prev. induction rest as [|k rest IH]; intros fuel cur prev.
  - simpl. intros -> _ Hf. destruct fuel; [lia|]. done.
  - simpl. intros (-> & nd & Hk & Hr) Hnot Hf. destruct fuel; [lia|].
    apply not_elem_of_cons in Hnot as [Hne Hnot]. simpl.
    destruct (decide (k = node)) as [->|_]; [done|].
    unfold bind, get_next. rewrite Hk. apply IH; [done..|lia].
Qed.

Lemma remove_scan_found fuel node s a b cur prev :
  lseg (heap s) cur None (a ++ node :: b) → node ∉ a → (length a < fuel)%nat →
  (∀ k, prev = Some k → is_Some (heap s !! k)) →
  remove_scan fuel node cur prev s =
    Return () (match scan_previous prev a with
               | Some k => mkStore (head s) (with_next k (hd_error b) (heap s))
               | None => mkStore (hd_error b) (heap s)
               end).
Proof.
  revert fuel cur prev. induction a as [|k a IH]; intros fuel cur prev.
  - simpl. intros (-> & nd & Hn & Hb) _ Hf Hprev. destruct fuel; [lia|].
    apply lseg_start in Hb. simpl. rewrite decide_True by done.
    unfold bind, get_next. rewrite Hn, Hb. unfold scan_previous. simpl.
    destruct prev as [k|]; [|done].
    unfold set_next. by destruct (Hprev k eq_refl) as [? ->].
  - simpl. intros (-> & nd & Hk & Hr) Hnot Hf Hprev. destruct fuel; [lia|].
    apply not_elem_of_cons in Hnot as [Hne Hnot]. simpl.
    rewrite decide_False by done. unfold bind at 1, get_next. rewrite Hk.
    rewrite scan_previous_cons. apply IH; [done..|lia|].
    intros ? [= <-]. eauto.
Qed.

(** [remove] of a node that the traversal does not visit: only its [next]
    is reset. *)
Lemma remove_absent fuel s ns n :
  is_list s ns → n ∉ ns → is_Some (heap s !! n) → (length ns < fuel)%nat →
  remove fuel n s = Return () (mkStore (head s) (with_next n None (heap s))).
Proof.
  intros Hl Hn [nd Hnd] Hf. unfold remove, bind at 1, get_head.
  unfold bind. rewrite (remove_scan_absent _ _ _ ns) by done.
  unfold set_next. by rewrite Hnd.
Qed.

(** [remove] of a node of the list unlinks it. *)
Lemma remove_member fuel s a n b :
  is_list s (a ++ n :: b) → (length a < fuel)%nat →
  ∃ s', remove fuel n s = Return () s' ∧
        is_list s' (a ++ b) ∧
        detached (heap s') n ∧
        (∀ m, value_at (heap s') m = value_at (heap s) m) ∧
        (∀ m, m ≠ n → last a ≠ Some m → heap s' !! m = heap s !! m).
Proof.
  intros Hl Hf. pose proof (lseg_NoDup _ _ _ Hl) as Hnd.
  apply NoDup_app in Hnd as (Hnda & Hab & Hndb).
  apply NoDup_cons in Hndb as [Hnb Hndb].
  assert (n ∉ a) as Hna. { intros Hin. apply (Hab n Hin). left. }
  unfold remove, bind at 1, get_head. unfold bind.
  rewrite (remove_scan_found _ _ _ a b) by done.
  unfold is_list in Hl. apply lseg_app in Hl as (r & Ha & Hb).
  pose proof Hb as (-> & nd & Hn & Hb'). pose proof (lseg_start _ _ _ Hb') as Hnx.
  unfold scan_previous.
  destruct (last a) as [k|] eqn:Hlast.
  - apply last_Some in Hlast as [a' ->].
    apply lseg_app in Ha as (r & Ha' & (-> & ndk & Hk & Hkn)). simpl in Hkn.
    assert (k ∈ a' ++ [k]) as Hkin. { apply elem_of_app. right. left. }
    assert (k ≠ n) as Hkn'. { by intros ->. }
    assert (n ∉ a') as Hna'. { intros Hin. apply Hna, elem_of_app. by left. }
    assert (k ∉ a') as Hka.
    { apply NoDup_app in Hnda as (_ & Hd & _). intros Hin. apply (Hd k Hin). left. }
    assert (k ∉ b) as Hkb. { intros Hin. apply (Hab k); [done|by right]. }
    unfold set_next. simpl. rewrite lookup_with_next_ne, Hn by done.
    eexists. split; [done|]. split; [|split; [|split]].
    + unfold is_list. simpl. rewrite <- app_assoc. apply lseg_app.
      exists (Some k). split.
      * apply lseg_with_next; [done|]. by apply lseg_with_next.
      * simpl. split; [done|]. eexists. split.
        { rewrite lookup_with_next_ne by done. by apply lookup_with_next_eq. }
        simpl. rewrite <- Hnx. apply lseg_with_next; [done|].
        by apply lseg_with_next.
    + unfold detached, next_at. simpl.
      rewrite (lookup_with_next_eq _ _ _ nd); [done|].
      by rewrite lookup_with_next_ne.
    + intros m. simpl. by rewrite !value_at_with_next.
    + intros m Hmn Hmk. simpl.
      rewrite !lookup_with_next_ne; [done|congruence|congruence].
  - apply last_None in Hlast as ->.
    unfold set_next. simpl. rewrite Hn.
    eexists. split; [done|]. split; [|split; [|split]].
    + unfold is_list. simpl. rewrite <- Hnx. by apply lseg_with_next.
    + unfold detached, next_at. simpl. by rewrite (lookup_with_next_eq _ _ _ nd).
    + intros m. simpl. by rewrite value_at_with_next.
    + intros m Hmn _. simpl. by rewrite lookup_with_next_ne.
Qed.

(** ** The queries *)

Lemma values_of_cons h k nd ns :
  h !! k = Some nd → values_of h (k :: ns) = value nd :: values_of h ns.
Proof. intros Hk. unfold values_of, value_at. simpl. by rewrite Hk. Qed.

Lemma toString_scan_spec fuel s rest cur acc :
  lseg (heap s) cur None rest → (length rest < fuel)%nat →
  toString_scan fuel acc cur s = Return (acc ++ values_of (heap s) rest) s.
Proof.
  revert fuel cur acc. induction rest as [|k rest IH]; intros fuel cur acc.
  - simpl. intros -> Hf. destruct fuel; [lia|]. simpl. unfold ret.
    by rewrite app_nil_r.
  - intros Hl Hf. simpl in Hl, Hf. destruct Hl as (-> & nd & Hk & Hr).
    destruct fuel; [lia|]. rewrite (values_of_cons _ _ nd) by done. simpl.
    unfold bind, get_value, get_next. rewrite Hk. simpl. rewrite Hk.
    rewrite (IH _ _ _ Hr) by lia. by rewrite <- app_assoc.
Qed.

Lemma toString_spec show fuel s ns :
  is_list s ns → (length ns < fuel)%nat →
  toString show fuel s =
    Return (join " -> " (show <$> values_of (heap s) ns)) s.
Proof.
  intros Hl Hf. unfold toString, bind, get_head.
  by rewrite (toString_scan_spec _ _ ns) by done.
Qed.

Lemma containsNodeWithValue_scan_spec fuel s rest cur v :
  lseg (heap s) cur None rest → (length rest < fuel)%nat →
  containsNodeWithValue_scan fuel v cur s =
    Return (bool_decide (v ∈ values_of (heap s) rest)) s.
Proof.
  revert fuel cur. induction rest as [|k rest IH]; intros fuel cur.
  - intros Hl Hf. simpl in Hl, Hf. subst cur. destruct fuel; [lia|].
    cbn [containsNodeWithValue_scan]. unfold ret.
    rewrite bool_decide_eq_false_2; [done|]. apply not_elem_of_nil.
  - intros Hl Hf. simpl in Hl, Hf. destruct Hl as (-> & nd & Hk & Hr).
    destruct fuel; [lia|]. rewrite (values_of_cons _ _ nd) by done. simpl.
    unfold bind at 1, get_value. rewrite Hk.
    destruct (decide (value nd = v)) as [<-|Hne].
    + unfold ret. rewrite bool_decide_eq_true_2; [done|]. left.
    + unfold bind, get_next. rewrite Hk. rewrite (IH _ _ Hr) by lia.
      do 2 f_equal. apply bool_decide_ext. rewrite elem_of_cons.
      split; [by right|]. by intros [->|?].
Qed.

Lemma containsNodeWithValue_spec fuel s ns v :
  is_list s ns → (length ns < fuel)%nat →
  containsNodeWithValue fuel v s =
    Return (bool_decide (v ∈ values_of (heap s) ns)) s.
Proof.
  intros Hl Hf. unfold containsNodeWithValue, bind, get_head.
  by apply containsNodeWithValue_scan_spec.
Qed.

Lemma values_of_ext h h' ns :
  (∀ m, value_at h' m = value_at h m) → values_of h' ns = values_of h ns.
Proof.
  intros Hv. induction ns as [|k ns IH]; simpl; [done|].
  by rewrite Hv, IH.
Qed.

(** ** [insertAfter] and [setHead] of a node that is not in the list *)

Lemma insertAfter_fresh fuel s a e b n :
  is_list s (a ++ e :: b) → n ∉ a ++ e :: b → is_Some (heap s !! n) →
  (length (a ++ e :: b) < fuel)%nat →
  ∃ s', insertAfter fuel e n s = Return () s' ∧
        is_list s' (a ++ e :: n :: b) ∧
        (detached (heap s) n →
         heap s' = with_next e (Some n) (with_next n (hd_error b) (heap s))) ∧
        head s' = head s ∧
        (∀ m, value_at (heap s') m = value_at (heap s) m) ∧
        (∀ m, m ≠ n → m ≠ e → heap s' !! m = heap s !! m).
Proof.
  intros Hl Hn [nd Hnd] Hf. pose proof (lseg_NoDup _ _ _ Hl) as Hdup.
  apply NoDup_app in Hdup as (_ & Hab & Hdup).
  apply NoDup_cons in Hdup as [Heb _].
  assert (e ≠ n) as Hen. { intros ->. apply Hn, elem_of_app. right. left. }
  assert (n ∉ a) as Hna. { intros Hin. apply Hn, elem_of_app. by left. }
  assert (n ∉ b) as Hnb. { intros Hin. apply Hn, elem_of_app. right. by right. }
  assert (e ∉ a) as Hea. { intros Hin. apply (Hab e Hin). left. }
  unfold insertAfter. rewrite decide_False by done. unfold bind at 1.
  rewrite (remove_absent _ _ (a ++ e :: b)) by eauto.
  unfold is_list in Hl. apply lseg_app in Hl as (r & Ha & (-> & nde & He & Hb)).
  pose proof (lseg_start _ _ _ Hb) as Hnx.
  unfold bind at 1, get_next. simpl. rewrite lookup_with_next_ne, He by done.
  unfold bind, set_next. simpl.
  rewrite (lookup_with_next_eq _ _ _ nd) by done. simpl.
  rewrite lookup_with_next_ne, lookup_with_next_ne, He by done.
  eexists. split; [done|]. split; [|split; [|split; [|split]]]; simpl.
  - unfold is_list. simpl. apply lseg_app. exists (Some e). split.
    + by do 3 (apply lseg_with_next; [done|]).
    + simpl. split; [done|]. eexists. split.
      { apply lookup_with_next_eq. by rewrite !lookup_with_next_ne. }
      simpl. split; [done|]. eexists. split.
      { rewrite lookup_with_next_ne by done. apply lookup_with_next_eq.
        by apply lookup_with_next_eq. }
      simpl. by do 3 (apply lseg_with_next; [done|]).
  - intros Hdet. unfold detached, next_at in Hdet. rewrite Hnd in Hdet.
    injection Hdet as Hdet.
    assert (with_next n None (heap s) = heap s) as ->.
    { rewrite <- Hdet. by apply with_next_id. }
    by rewrite Hnx.
  - done.
  - intros m. by rewrite !value_at_with_next.
  - intros m Hmn Hme. rewrite !lookup_with_next_ne; done.
Qed.

Lemma setHead_fresh fuel s ns n :
  is_list s ns → n ∉ ns → is_Some (heap s !! n) →
  (ns = [] → detached (heap s) n) → (length ns < fuel)%nat →
  ∃ s', setHead fuel n s = Return () s' ∧
        is_list s' (n :: ns) ∧
        (∀ m, value_at (heap s') m = value_at (heap s) m) ∧
        (∀ m, m ≠ n → heap s' !! m = heap s !! m).
Proof.
  intros Hl Hn [nd Hnd] Hdet Hf. unfold setHead, bind at 1, get_head.
  destruct (head s) as [k|] eqn:Hhead.
  - unfold bind at 1. rewrite (remove_absent _ _ ns) by eauto.
    unfold bind, get_head, set_next, set_head. simpl.
    rewrite (lookup_with_next_eq _ _ _ nd) by done.
    eexists. split; [done|]. split; [|split]; simpl.
    + unfold is_list. simpl. split; [done|]. eexists. split.
      { apply lookup_with_next_eq. by apply lookup_with_next_eq. }
      simpl. by do 2 (apply lseg_with_next; [done|]).
    + intros m. by rewrite !value_at_with_next.
    + intros m Hmn. by rewrite !lookup_with_next_ne.
  - unfold is_list in Hl. rewrite Hhead in Hl.
    destruct ns as [|k ns]; [|by destruct Hl]. specialize (Hdet eq_refl).
    unfold detached, next_at in Hdet. rewrite Hnd in Hdet.
    injection Hdet as Hdet. unfold set_head.
    eexists. split; [done|]. split; [|done].
    unfold is_list. simpl. split; [done|]. exists nd. by rewrite Hdet.
Qed.

(** ** [removeNodesWithValue] *)

Lemma removeNodesWithValue_scan_spec fuel steps v s pre rest cur :
  is_list s (pre ++ rest) → cur = hd_error rest →
  (length (pre ++ rest) < fuel)%nat → (length rest < steps)%nat →
  ∃ s', removeNodesWithValue_scan fuel steps v cur s = Return () s' ∧
        is_list s' (pre ++ filter (λ m, value_at (heap s) m ≠ Some v) rest) ∧
        (∀ m, value_at (heap s') m = value_at (heap s) m).
Proof.
  revert steps s pre cur.
  induction rest as [|k rest IH]; intros steps s pre cur Hl -> Hf Hs.
  - destruct steps; [simpl in Hs; lia|]. exists s. by rewrite app_nil_r in *.
  - simpl in Hs. destruct steps; [lia|]. pose proof Hl as Hl'.
    unfold is_list in Hl'. apply lseg_app in Hl' as (r & _ & (_ & nd & Hk & Hr)).
    apply lseg_start in Hr. simpl.
    unfold bind at 1, get_next. rewrite Hk.
    unfold bind at 1, get_value. rewrite Hk. unfold bind.
    destruct (decide (value nd = v)) as [Hv|Hv].
    + destruct (remove_member fuel s pre k rest) as (s1 & -> & Hl1 & _ & Hval1 & _);
        [done|rewrite length_app in Hf; lia|].
      destruct (IH steps s1 pre _ Hl1 Hr) as (s' & -> & Hl2 & Hval2).
      { rewrite length_app in *. simpl in Hf. lia. }
      { lia. }
      exists s'. split; [done|]. split.
      * rewrite filter_cons_False.
        2:{ unfold value_at. rewrite Hk. simpl. intros Hne. by apply Hne; f_equal. }
        erewrite list_filter_iff; [done|]. intros m. simpl. by rewrite Hval1.
      * intros m. by rewrite Hval2.
    + unfold ret.
      assert (pre ++ k :: rest = (pre ++ [k]) ++ rest) as Hsnoc
        by (by rewrite <- app_assoc).
      rewrite Hsnoc in Hl, Hf.
      destruct (IH steps s (pre ++ [k]) _ Hl Hr Hf) as (s' & -> & Hl2 & Hval2).
      { lia. }
      exists s'. split; [done|]. split; [|done].
      rewrite filter_cons_True.
      2:{ unfold value_at. rewrite Hk. simpl. congruence. }
      by rewrite <- app_assoc in Hl2.
Qed.

Lemma removeNodesWithValue_spec fuel v s ns :
  is_list s ns → (length ns < fuel)%nat →
  ∃ s', removeNodesWithValue fuel v s = Return () s' ∧
        is_list s' (filter (λ m, value_at (heap s) m ≠ Some v) ns) ∧
        (∀ m, value_at (heap s') m = value_at (heap s) m).
Proof.
  intros Hl Hf. unfold removeNodesWithValue, bind, get_head.
  apply (removeNodesWithValue_scan_spec fuel fuel v s [] ns); try done.
  by apply lseg_start in Hl.
Qed.

(** ** [insertAtPosition] *)

(** The scan stops on the node before the position when the position is
    within the rest of the list or just past its end. *)
Lemma insertAtPosition_scan_within fuel position s rest cur prev i :
  lseg (heap s) cur None rest → position ≤ i + Z.of_nat (length rest) →
  (length rest < fuel)%nat →
  insertAtPosition_scan fuel position cur prev i s =
    Return (if decide (i < position)
            then rest !! (Z.to_nat (position - i) - 1)%nat else prev) s.
Proof.
  revert fuel cur prev i.
  induction rest as [|k rest IH]; intros fuel cur prev i Hl Hp Hf.
  - simpl in Hp, Hf. destruct fuel; [lia|]. simpl.
    by rewrite !decide_False by lia.
  - simpl in Hl, Hf. destruct Hl as (-> & nd & Hk & Hr).
    rewrite length_cons in Hp. destruct fuel; [lia|]. simpl.
    destruct (decide (i < position)) as [Hlt|]; [|done].
    unfold bind, get_next. rewrite Hk.
    rewrite decide_False.
    2:{ intros [Hnone Hgt]. rewrite Hnone in Hr. apply lseg_start in Hr.
        destruct rest; [simpl in Hp; lia|done]. }
    rewrite (IH _ _ _ _ Hr) by lia.
    f_equal. destruct (decide (i + 1 < position)) as [Hlt'|Hge].
    + replace (Z.to_nat (position - i) - 1)%nat
        with (S (Z.to_nat (position - (i + 1)) - 1)) by lia. done.
    + replace (Z.to_nat (position - i) - 1)%nat with 0%nat by lia. done.
Qed.

(** The scan fails when the position is more than one past the end of a
    non-empty rest. *)
Lemma insertAtPosition_scan_beyond fuel position s rest cur prev i :
  lseg (heap s) cur None rest → rest ≠ [] → i + Z.of_nat (length rest) < position →
  (length rest ≤ fuel)%nat →
  insertAtPosition_scan fuel position cur prev i s =
    Throw (Error (range_message position (i + Z.of_nat (length rest)))) s.
Proof.
  revert fuel cur prev i.
  induction rest as [|k rest IH]; intros fuel cur prev i Hl Hne Hp Hf; [done|].
  simpl in Hl, Hf. destruct Hl as (-> & nd & Hk & Hr).
  rewrite length_cons in Hp |- *. destruct fuel; [lia|]. simpl.
  rewrite decide_True by lia. unfold bind, get_next. rewrite Hk.
  destruct rest as [|k' rest].
  - simpl in Hr. rewrite Hr. rewrite decide_True by (split; [done|simpl in Hp; lia]).
    unfold throw. by do 3 f_equal.
  - pose proof Hr as [Hnx _]. rewrite decide_False by (rewrite Hnx; by intros [? _]).
    rewrite (IH _ _ _ _ Hr) by (done || simpl in *; lia).
    do 3 f_equal. rewrite !length_cons. lia.
Qed.

(** On the empty list the scan reads [next] of [null]. *)
Lemma insertAtPosition_scan_null fuel position s prev i :
  i < position → (0 < fuel)%nat →
  insertAtPosition_scan fuel position None prev i s = Throw TypeError s.
Proof.
  intros Hp Hf. destruct fuel; [lia|]. simpl. by rewrite decide_True.
Qed.

Lemma is_Some_value_at h h' m :
  (∀ k, value_at h' k = value_at h k) → is_Some (h !! m) → is_Some (h' !! m).
Proof.
  intros Hv [nd Hm]. specialize (Hv m). unfold value_at in Hv.
  rewrite Hm in Hv. destruct (h' !! m); [eauto|done].
Qed.

(** After the initial [remove] of a node that is not in the list, the list
    is as before and the node is detached. *)
Lemma remove_absent_list s ns n :
  is_list s ns → n ∉ ns →
  is_list (mkStore (head s) (with_next n None (heap s))) ns.
Proof. intros Hl Hn. unfold is_list. simpl. by apply lseg_with_next. Qed.

Lemma insertAtPosition_beyond fuel position s ns n :
  is_list s ns → ns ≠ [] → n ∉ ns → is_Some (heap s !! n) →
  1 + Z.of_nat (length ns) < position → (length ns < fuel)%nat →
  insertAtPosition fuel position n s =
    Throw (Error (range_message position (1 + Z.of_nat (length ns))))
          (mkStore (head s) (with_next n None (heap s))).
Proof.
  intros Hl Hne Hn Hnd Hp Hf. unfold insertAtPosition, bind at 1.
  rewrite (remove_absent _ _ ns) by done.
  unfold bind at 1, get_head. unfold bind. simpl.
  by rewrite (insertAtPosition_scan_beyond _ _ _ ns)
    by (done || lia || by apply remove_absent_list).
Qed.

Lemma insertAtPosition_within fuel position s ns n :
  is_list s ns → n ∉ ns → is_Some (heap s !! n) →
  position ≤ 1 + Z.of_nat (length ns) → (length ns < fuel)%nat →
  ∃ s', insertAtPosition fuel position n s = Return () s' ∧
        is_list s' (take (Z.to_nat (position - 1)) ns ++ n ::
                    drop (Z.to_nat (position - 1)) ns) ∧
        (∀ m, value_at (heap s') m = value_at (heap s) m).
Proof.
  intros Hl Hn [nd Hnd] Hp Hf. unfold insertAtPosition, bind at 1.
  rewrite (remove_absent _ _ ns) by eauto.
  pose proof (remove_absent_list _ _ _ Hl Hn) as Hl1.
  set (s1 := mkStore (head s) (with_next n None (heap s))) in *.
  assert (heap s1 !! n = Some (mkNode (value nd) None)) as Hnd1.
  { by apply lookup_with_next_eq. }
  assert (∀ m, value_at (heap s1) m = value_at (heap s) m) as Hval1.
  { intros m. apply value_at_with_next. }
  unfold bind at 1, get_head. unfold bind.
  rewrite (insertAtPosition_scan_within _ _ _ ns) by (done || lia).
  destruct (decide (1 < position)) as [Hlt|Hge].
  - set (j := (Z.to_nat (position - 1) - 1)%nat).
    replace (Z.to_nat (position - 1)) with (S j) by lia.
    destruct (lookup_lt_is_Some_2 ns j) as [e He]; [lia|]. rewrite He.
    pose proof (take_drop_middle _ _ _ He) as Hsplit.
    rewrite <- Hsplit in Hl1, Hn, Hf.
    destruct (insertAfter_fresh fuel s1 _ _ _ n Hl1 Hn) as
      (s' & -> & Hl' & _ & _ & Hval' & _); [eauto|done|].
    exists s'. split; [done|]. split.
    + rewrite (take_S_r _ _ e) by done. by rewrite <- app_assoc.
    + intros m. by rewrite Hval'.
  - replace (Z.to_nat (position - 1)) with 0%nat by lia.
    destruct (setHead_fresh fuel s1 ns n) as (s' & -> & Hl' & Hval' & _);
      [done|done|eauto|..|done|].
    { intros _. unfold detached, next_at. by rewrite Hnd1. }
    exists s'. split; [done|]. split; [done|].
    intros m. by rewrite Hval'.
Qed.

(** ** The constructor *)

Lemma constructor_loop_spec fuel nodes remaining i s :
  NoDup nodes → (1 ≤ i)%nat → (i + remaining = length nodes)%nat →
  is_list s (take i nodes) → (∀ m, m ∈ nodes → is_Some (heap s !! m)) →
  (length nodes < fuel)%nat →
  ∃ s', constructor_loop fuel nodes remaining i s = Return () s' ∧
        is_list s' nodes ∧
        (∀ m, value_at (heap s') m = value_at (heap s) m).
Proof.
  intros Hdup. revert i s.
  induction remaining as [|remaining IH]; intros i s Hi Hlen Hl Halloc Hf.
  - exists s. rewrite take_ge in Hl by lia. done.
  - simpl. unfold bind at 1, get_head.
    destruct (lookup_lt_is_Some_2 nodes (i - 1)) as [a Ha]; [lia|].
    destruct (lookup_lt_is_Some_2 nodes i) as [b Hb]; [lia|].
    assert (take i nodes = take (i - 1) nodes ++ [a]) as Htake.
    { replace i with (S (i - 1)) at 1 by lia. by apply take_S_r. }
    rewrite Htake in Hl.
    assert (b ∉ take (i - 1) nodes ++ [a]) as Hfresh.
    { rewrite <- Htake. intros (j & Hj & Hlt)%elem_of_take.
      pose proof (NoDup_lookup _ _ _ _ Hdup Hj Hb). lia. }
    destruct (head s) as [k|] eqn:Hhead.
    2:{ unfold is_list in Hl. rewrite Hhead in Hl.
        by destruct (take (i - 1) nodes); destruct Hl. }
    rewrite Ha, Hb.
    destruct (insertAfter_fresh fuel s _ _ _ b Hl Hfresh) as
      (s1 & Hrun & Hl1 & _ & _ & Hval1 & _).
    { apply Halloc. by eapply list_elem_of_lookup_2. }
    { rewrite <- Htake, length_take. lia. }
    unfold bind. rewrite Hrun.
    destruct (IH (S i) s1) as (s' & -> & Hl' & Hval'); [lia|lia|..|done|].
    { rewrite (take_S_r _ _ b), Htake by done. by rewrite <- app_assoc. }
    { intros m Hm. eapply is_Some_value_at; eauto. }
    exists s'. split; [done|]. split; [done|].
    intros m. by rewrite Hval'.
Qed.

Lemma constructor_spec fuel nodes s :
  head s = None → NoDup nodes → (∀ m, m ∈ nodes → detached (heap s) m) →
  (length nodes < fuel)%nat →
  ∃ s', constructor fuel nodes s = Return () s' ∧
        is_list s' nodes ∧
        (∀ m, value_at (heap s') m = value_at (heap s) m).
Proof.
  intros Hhead Hdup Hdet Hf. destruct nodes as [|first nodes].
  - exists s. split; [done|]. split; [|done]. unfold is_list. by rewrite Hhead.
  - assert (detached (heap s) first) as Hfirst. { apply Hdet. left. }
    unfold detached, next_at in Hfirst.
    destruct (heap s !! first) as [nd|] eqn:Hnd; [|done].
    injection Hfirst as Hfirst.
    unfold constructor, bind at 1, setHead, bind at 1, get_head.
    rewrite Hhead. unfold set_head.
    destruct (constructor_loop_spec fuel (first :: nodes)
                (length (first :: nodes) - 1)%nat 1%nat
                (mkStore (Some first) (heap s))) as (s' & Hrun & Hl' & Hval');
      [done|lia|simpl; lia|..|done|by exists s'].
    + unfold is_list. simpl. split; [done|]. exists nd. by rewrite Hfirst.
    + intros m Hm. simpl. specialize (Hdet m Hm).
      unfold detached, next_at in Hdet. destruct (heap s !! m); [eauto|done].
Qed.

Lemma filter_all {A} (P : A → Prop) `{!∀ x, Decision (P x)} (l : list A) :
  Forall P l → filter P l = l.
Proof.
  induction 1 as [|x l Hx _ IH]; [done|]. by rewrite filter_cons_True, IH.
Qed.

(** The store after [remove(n)] on a well-formed list, whether or not [n]
    is one of its nodes. *)
Lemma remove_spec fuel s ns n :
  is_list s ns → is_Some (heap s !! n) → (length ns < fuel)%nat →
  ∃ s', remove fuel n s = Return () s' ∧
        is_list s' (filter (λ m, m ≠ n) ns) ∧
        detached (heap s') n ∧
        (∀ m, value_at (heap s') m = value_at (heap s) m).
Proof.
  intros Hl Hnd Hf. destruct (decide (n ∈ ns)) as [Hin|Hn].
  - apply list_elem_of_split in Hin as (a & b & ->).
    pose proof (lseg_NoDup _ _ _ Hl) as Hdup.
    apply NoDup_app in Hdup as (_ & Hab & Hdup).
    apply NoDup_cons in Hdup as [Hnb _].
    destruct (remove_member fuel s a n b) as (s' & Hrun & Hl' & Hdet & Hval & _);
      [done|rewrite length_app in Hf; lia|].
    exists s'. split; [done|]. split; [|done].
    rewrite filter_app, filter_cons_False by (by intros ?).
    rewrite !filter_all; [done|..]; apply Forall_forall.
    + by intros m Hm ->.
    + intros m Hm ->. apply (Hab n Hm). left.
  - rewrite (remove_absent _ _ ns) by done. eexists. split; [done|]. simpl.
    split; [|split].
    + rewrite filter_all; [by apply remove_absent_list|].
      apply Forall_forall. by intros m Hm ->.
    + destruct Hnd as [nd Hnd]. unfold detached, next_at.
      by rewrite (lookup_with_next_eq _ _ _ nd).
    + intros m. apply value_at_with_next.
Qed.

(** A second [remove] of a detached node that is not in the list changes
    nothing. *)
Lemma remove_again fuel s ns n :
  is_list s ns → n ∉ ns → detached (heap s) n → (length ns < fuel)%nat →
  remove fuel n s = Return () s.
Proof.
  intros Hl Hn Hdet Hf. unfold detached, next_at in Hdet.
  destruct (heap s !! n) as [nd|] eqn:Hnd; [|done]. injection Hdet as Hdet.
  rewrite (remove_absent _ _ ns) by eauto.
  rewrite <- Hdet, (with_next_id _ _ nd) by done. by destruct s.
Qed.

(** What [insertAtPosition] does on a well-formed list, for any node and
    any position; [rest] is the list once the node has been removed. *)
Lemma insertAtPosition_spec fuel position s ns n :
  is_list s ns → is_Some (heap s !! n) → (length ns < fuel)%nat →
  let rest := filter (λ m, m ≠ n) ns in
  (position ≤ 1 + Z.of_nat (length rest) →
   ∃ s', insertAtPosition fuel position n s = Return () s' ∧
         is_list s' (take (Z.to_nat (position - 1)) rest ++ n ::
                     drop (Z.to_nat (position - 1)) rest)) ∧
  (rest ≠ [] → 1 + Z.of_nat (length rest) < position →
   ∃ s', insertAtPosition fuel position n s =
           Throw (Error (range_message position (1 + Z.of_nat (length rest)))) s') ∧
  (rest = [] → 1 < position →
   ∃ s', insertAtPosition fuel position n s = Throw TypeError s').
Proof.
  intros Hl Hnd Hf rest.
  destruct (remove_spec fuel s ns n) as (s1 & Hrun & Hl1 & Hdet & Hval); [done..|].
  fold rest in Hl1.
  assert (n ∉ rest) as Hn.
  { unfold rest. rewrite list_elem_of_filter. by intros [? _]. }
  assert (length rest < fuel)%nat as Hf1.
  { pose proof (length_filter (λ m, m ≠ n) ns). unfold rest. lia. }
  assert (is_Some (heap s1 !! n)) as Hnd1.
  { unfold detached, next_at in Hdet. destruct (heap s1 !! n); [eauto|done]. }
  assert (insertAtPosition fuel position n s = insertAtPosition fuel position n s1)
    as ->.
  { unfold insertAtPosition, bind.
    by rewrite Hrun, (remove_again _ _ rest). }
  split; [|split].
  - intros Hp.
    destruct (insertAtPosition_within fuel position s1 rest n)
      as (s' & ? & ? & _); eauto.
  - intros Hne Hp. eexists. by apply insertAtPosition_beyond.
  - intros Hnil Hp. eexists. unfold insertAtPosition, bind.
    rewrite (remove_again _ _ rest) by done. unfold get_head.
    rewrite Hnil in Hl1. unfold is_list in Hl1. simpl in Hl1. rewrite Hl1.
    by rewrite insertAtPosition_scan_null by lia.
Qed.

Lemma join_concat sep xs : join sep xs = String.concat sep xs.
Proof.
  induction xs as [|x xs IH]; [done|]. destruct xs as [|y xs]; [done|].
  change (join sep (x :: y :: xs)) with (x +:+ sep +:+ join sep (y :: xs)).
  by rewrite IH.
Qed.

Lemma values_of_length h p ns :
  lseg h p None ns → length (values_of h ns) = length ns.
Proof.
  revert p. induction ns as [|k ns IH]; intros p; [done|].
  intros (-> & nd & Hk & Hr). rewrite (values_of_cons _ _ nd) by done.
  simpl. f_equal. eauto.
Qed.

(** ** The properties of the specification *)

(** C3: on a well-formed list [toString()] returns the values of the nodes in
    traversal order, joined by the separator [" -> "] (one space on each
    side of the arrow); on the empty list it returns the empty string. *)
Theorem toString_joins_values show fuel s ns :
  is_list s ns → (length ns < fuel)%nat →
  toString show fuel s =
    Return (String.concat " -> " (show <$> values_of (heap s) ns)) s ∧
  length (values_of (heap s) ns) = length ns ∧
  (ns = [] → toString show fuel s = Return "" s).
Proof.
  intros Hl Hf. rewrite (toString_spec _ _ _ ns), join_concat by done.
  split; [done|]. split; [by eapply values_of_length|]. by intros ->.
Qed.

(** C10: the queries are pure: [toString()] and [containsNodeWithValue(v)]
    return with the store (the head reference, every node's value and next
    link) as it was before the call. *)
Theorem queries_leave_store_unchanged show fuel s ns v :
  is_list s ns → (length ns < fuel)%nat →
  (∃ str, toString show fuel s = Return str s) ∧
  (∃ found, containsNodeWithValue fuel v s = Return found s).
Proof.
  intros Hl Hf. split.
  - eexists. by apply toString_spec.
  - eexists. by apply containsNodeWithValue_spec.
Qed.

(** C9: [remove(n)] of a node that is not reachable from the head leaves the
    head reference and every other node as they were; its only effect is
    that [n.next] is [null]. *)
Theorem remove_unreachable_frame fuel s ns n :
  is_list s ns → ¬ reachable (heap s) (head s) n → is_Some (heap s !! n) →
  (length ns < fuel)%nat →
  ∃ s', remove fuel n s = Return () s' ∧
        head s' = head s ∧
        (∀ m, m ≠ n → heap s' !! m = heap s !! m) ∧
        (∀ m, m ∈ ns → heap s' !! m = heap s !! m) ∧
        value_at (heap s') n = value_at (heap s) n ∧
        next_at (heap s') n = Some None.
Proof.
  intros Hl Hunreach Hnd Hf.
  assert (n ∉ ns) as Hn. { intros Hin. by apply Hunreach, (reachable_lseg _ _ ns). }
  rewrite (remove_absent _ _ ns) by done. eexists. split; [done|]. simpl.
  split; [done|]. split; [|split; [|split]].
  - intros m Hm. by rewrite lookup_with_next_ne.
  - intros m Hm. rewrite lookup_with_next_ne; [done|]. by intros ->.
  - apply value_at_with_next.
  - destruct Hnd as [nd Hnd]. unfold next_at.
    by rewrite (lookup_with_next_eq _ _ _ nd).
Qed.

(** C7: after [remove(n)] returns, [n.next] is [null] and [n] is not
    reachable from the head. *)
Theorem remove_detaches fuel s ns n :
  is_list s ns → is_Some (heap s !! n) → (length ns < fuel)%nat →
  ∃ s', remove fuel n s = Return () s' ∧
        next_at (heap s') n = Some None ∧
        ¬ reachable (heap s') (head s') n.
Proof.
  intros Hl Hnd Hf.
  destruct (remove_spec fuel s ns n) as (s' & Hrun & Hl' & Hdet & _); [done..|].
  exists s'. split; [done|]. split; [done|].
  rewrite (reachable_lseg _ _ _ _ Hl'), list_elem_of_filter. by intros [? _].
Qed.

(** C6: [remove(n)] is idempotent: a second call returns with the store that
    the first call left, whether or not [n] was in the list. *)
Theorem remove_idempotent fuel s ns n :
  is_list s ns → is_Some (heap s !! n) → (length ns < fuel)%nat →
  ∃ s1, remove fuel n s = Return () s1 ∧ remove fuel n s1 = Return () s1.
Proof.
  intros Hl Hnd Hf.
  destruct (remove_spec fuel s ns n) as (s1 & Hrun & Hl1 & Hdet & Hval); [done..|].
  exists s1. split; [done|]. apply (remove_again _ _ _ _ Hl1); [|done|].
  - rewrite list_elem_of_filter. by intros [? _].
  - pose proof (length_filter (λ m, m ≠ n) ns). lia.
Qed.

(** C4: round trip: after [insertAfter(e, n)] of a detached node [n] that is
    not in the list behind a node [e] of the list, and then [remove(n)],
    [toString()] returns what it returned before the two calls. *)
Theorem insertAfter_remove_roundtrip show fuel s ns e n :
  is_list s ns → e ∈ ns → detached (heap s) n → n ∉ ns →
  (length ns < fuel)%nat →
  ∃ str s1 s2,
    toString show fuel s = Return str s ∧
    insertAfter fuel e n s = Return () s1 ∧
    remove fuel n s1 = Return () s2 ∧
    toString show fuel s2 = Return str s2.
Proof.
  intros Hl He Hdet Hn Hf.
  assert (is_Some (heap s !! n)) as Hnd.
  { unfold detached, next_at in Hdet. destruct (heap s !! n); [eauto|done]. }
  apply list_elem_of_split in He as (a & b & ->).
  destruct (insertAfter_fresh fuel s a e b n) as
    (s1 & Hins & Hl1 & _ & _ & Hval1 & _); [done..|].
  assert (a ++ e :: n :: b = (a ++ [e]) ++ n :: b) as Hsnoc
    by (by rewrite <- app_assoc).
  rewrite Hsnoc in Hl1.
  destruct (remove_member fuel s1 (a ++ [e]) n b) as
    (s2 & Hrem & Hl2 & _ & Hval2 & _); [done| |].
  { rewrite length_app in *. simpl in *. lia. }
  rewrite <- app_assoc in Hl2. simpl in Hl2.
  exists (join " -> " (show <$> values_of (heap s) (a ++ e :: b))), s1, s2.
  split; [by apply toString_spec|]. split; [done|]. split; [done|].
  rewrite (toString_spec _ _ _ _ Hl2) by done. do 3 f_equal.
  apply values_of_ext. intros m. by rewrite Hval2.
Qed.

(** C5: [removeNodesWithValue(v)] removes exactly the nodes whose value is
    [v]; the other nodes stay, in their order and with their values; after
    the call [containsNodeWithValue(v)] returns [false]. *)
Theorem removeNodesWithValue_removes_all fuel s ns v :
  is_list s ns → (length ns < fuel)%nat →
  ∃ s', removeNodesWithValue fuel v s = Return () s' ∧
        is_list s' (filter (λ m, value_at (heap s) m ≠ Some v) ns) ∧
        (∀ m, value_at (heap s') m = value_at (heap s) m) ∧
        containsNodeWithValue fuel v s' = Return false s'.
Proof.
  intros Hl Hf.
  destruct (removeNodesWithValue_spec fuel v s ns) as (s' & Hrun & Hl' & Hval);
    [done..|].
  exists s'. split; [done|]. split; [done|]. split; [done|].
  rewrite (containsNodeWithValue_spec _ _ _ _ Hl').
  2:{ pose proof (length_filter (λ m, value_at (heap s) m ≠ Some v) ns). lia. }
  rewrite bool_decide_eq_false_2; [done|].
  unfold values_of. rewrite list_elem_of_omap.
  intros (m & [Hm _]%list_elem_of_filter & Hv). by rewrite Hval in Hv.
Qed.

(** C8: [new LinkedList(n1, ..., nk)] on pairwise distinct detached nodes
    yields the list whose head is [n1] and whose traversal visits
    [n1, ..., nk] in this order; no nodes yield the empty list. *)
Theorem constructor_builds_list fuel s nodes :
  head s = None → NoDup nodes → Forall (detached (heap s)) nodes →
  (length nodes < fuel)%nat →
  ∃ s', constructor fuel nodes s = Return () s' ∧
        head s' = hd_error nodes ∧
        is_list s' nodes ∧
        (∀ m, value_at (heap s') m = value_at (heap s) m).
Proof.
  intros Hhead Hdup Hdet Hf. rewrite Forall_forall in Hdet.
  destruct (constructor_spec fuel nodes s) as (s' & Hrun & Hl' & Hval); [done..|].
  exists s'. split; [done|]. split; [|done]. by apply lseg_start in Hl'.
Qed.

(** C1 (as the code has it): on a non-empty list of length [L], for a
    detached node that is not in the list, [insertAtPosition] fails for a
    position greater than [L + 1], with the error whose message names the
    requested position; at position [L + 1] it does not fail: the node is
    appended at the tail. *)
Theorem insertAtPosition_beyond_end fuel s ns n position :
  is_list s ns → ns ≠ [] → detached (heap s) n → n ∉ ns →
  (length ns < fuel)%nat →
  (1 + Z.of_nat (length ns) < position →
   ∃ i s', insertAtPosition fuel position n s =
             Throw (Error (range_message position i)) s') ∧
  (position = 1 + Z.of_nat (length ns) →
   ∃ s', insertAtPosition fuel position n s = Return () s' ∧
         is_list s' (ns ++ [n])).
Proof.
  intros Hl Hne Hdet Hn Hf.
  assert (is_Some (heap s !! n)) as Hnd.
  { unfold detached, next_at in Hdet. destruct (heap s !! n); [eauto|done]. }
  split.
  - intros Hp. do 2 eexists. by apply (insertAtPosition_beyond _ _ _ ns).
  - intros ->.
    destruct (insertAtPosition_within fuel (1 + Z.of_nat (length ns)) s ns n)
      as (s' & Hrun & Hl' & _); [done..|lia|done|].
    exists s'. split; [done|].
    replace (Z.to_nat (1 + Z.of_nat (length ns) - 1)) with (length ns) in Hl' by lia.
    by rewrite take_ge, drop_ge in Hl' by lia.
Qed.

(** C2 (what the code does on the empty list): for a position greater than
    1, the scan of [insertAtPosition] reads [next] of the [null] head and
    the call ends in a [TypeError]. *)
Theorem insertAtPosition_empty_list_TypeError fuel s n position :
  is_list s [] → is_Some (heap s !! n) → 1 < position → (0 < fuel)%nat →
  insertAtPosition fuel position n s =
    Throw TypeError (mkStore None (with_next n None (heap s))).
Proof.
  intros Hl Hnd Hp Hf. unfold insertAtPosition, bind at 1.
  rewrite (remove_absent _ _ []); [|done|apply not_elem_of_nil|done|done].
  unfold is_list in Hl. simpl in Hl.
  unfold bind at 1, get_head. unfold bind. simpl. rewrite Hl.
  by rewrite insertAtPosition_scan_null.
Qed.

(** ** The mutators on any node of the store *)

Lemma detached_lookup h n :
  detached h n → ∃ nd, h !! n = Some nd ∧ next nd = None.
Proof.
  unfold detached, next_at. destruct (h !! n) as [nd|]; [|done].
  intros [= Hnx]. eauto.
Qed.

Lemma with_next_detached h n : detached h n → with_next n None h = h.
Proof.
  intros (nd & Hnd & Hnx)%detached_lookup. rewrite <- Hnx.
  by apply with_next_id.
Qed.

Lemma not_elem_of_filter_ne ns n : n ∉ filter (λ m, m ≠ n) ns.
Proof. rewrite list_elem_of_filter. by intros [? _]. Qed.

Lemma length_filter_ne_lt ns n fuel :
  (length ns < fuel)%nat → (length (filter (λ m, m ≠ n) ns) < fuel)%nat.
Proof. intros Hf. pose proof (length_filter (λ m, m ≠ n) ns). lia. Qed.

(** [remove] does not touch the nodes that are outside the list. *)
Lemma remove_frame fuel s ns n :
  is_list s ns → is_Some (heap s !! n) → (length ns < fuel)%nat →
  ∃ s', remove fuel n s = Return () s' ∧
        is_list s' (filter (λ m, m ≠ n) ns) ∧
        detached (heap s') n ∧
        (∀ m, value_at (heap s') m = value_at (heap s) m) ∧
        (∀ m, m ∉ ns → m ≠ n → heap s' !! m = heap s !! m).
Proof.
  intros Hl Hnd Hf.
  destruct (remove_spec fuel s ns n) as (s' & Hrun & Hl' & Hdet & Hval); [done..|].
  exists s'. do 4 (split; [done|]). intros m Hm Hmn.
  destruct (decide (n ∈ ns)) as [Hin|Hn].
  - apply list_elem_of_split in Hin as (a & b & ->).
    destruct (remove_member fuel s a n b) as (s'' & Hrun' & _ & _ & _ & Hframe);
      [done|rewrite length_app in Hf; lia|].
    rewrite Hrun in Hrun'. injection Hrun' as <-. apply Hframe; [done|].
    intros Hlast%last_Some_elem_of. apply Hm, elem_of_app. by left.
  - rewrite (remove_absent _ _ ns) in Hrun by done. injection Hrun as <-.
    simpl. by rewrite lookup_with_next_ne.
Qed.

(** X3: [insertAfter(e, n)] behind a node [e] of the list, for any other
    node [n]: [n] is taken out of the list if it is in it, and then stands
    directly behind [e]; the other nodes keep their order. *)
Theorem insertAfter_moves_node fuel s ns e n :
  is_list s ns → e ∈ ns → e ≠ n → is_Some (heap s !! n) →
  (length ns < fuel)%nat →
  ∃ s' a b, insertAfter fuel e n s = Return () s' ∧
            filter (λ m, m ≠ n) ns = a ++ e :: b ∧
            is_list s' (a ++ e :: n :: b) ∧
            (∀ m, value_at (heap s') m = value_at (heap s) m).
Proof.
  intros Hl He Hen Hnd Hf.
  destruct (remove_spec fuel s ns n) as (s1 & Hrun & Hl1 & Hdet & Hval); [done..|].
  assert (e ∈ filter (λ m, m ≠ n) ns) as He1 by (by apply list_elem_of_filter).
  apply list_elem_of_split in He1 as (a & b & Hsplit).
  pose proof (not_elem_of_filter_ne ns n) as Hn1.
  pose proof (length_filter_ne_lt ns n fuel Hf) as Hf1.
  rewrite Hsplit in Hl1, Hn1, Hf1.
  assert (insertAfter fuel e n s = insertAfter fuel e n s1) as ->.
  { unfold insertAfter. rewrite decide_False by done. unfold bind.
    by rewrite Hrun, (remove_again _ _ (a ++ e :: b)). }
  destruct (insertAfter_fresh fuel s1 a e b n) as
    (s' & Hins & Hl' & _ & _ & Hval' & _); [done|done| |done|].
  { apply detached_lookup in Hdet as (? & ? & _). eauto. }
  exists s', a, b. split; [done|]. split; [done|]. split; [done|].
  intros m. by rewrite Hval'.
Qed.

(** [insertAfter] behind a node that is not in the list: the inserted node
    leaves the list and is linked behind [e], outside the list. *)
Lemma insertAfter_outside fuel s ns e n :
  is_list s ns → e ∉ ns → e ≠ n → is_Some (heap s !! e) →
  is_Some (heap s !! n) → (length ns < fuel)%nat →
  ∃ s', insertAfter fuel e n s = Return () s' ∧
        is_list s' (filter (λ m, m ≠ n) ns) ∧
        next_at (heap s') e = Some (Some n) ∧
        next_at (heap s') n = next_at (heap s) e ∧
        (∀ m, value_at (heap s') m = value_at (heap s) m) ∧
        (∀ m, m ∉ ns → m ≠ n → m ≠ e → heap s' !! m = heap s !! m).
Proof.
  intros Hl He Hen Hde Hnd Hf.
  destruct (remove_frame fuel s ns n) as (s1 & Hrun & Hl1 & Hdet & Hval & Hframe);
    [done..|].
  apply detached_lookup in Hdet as (nd1 & Hnd1 & _).
  destruct Hde as [nde Hnde].
  assert (heap s1 !! e = Some nde) as Hnde1 by (by rewrite Hframe).
  assert (e ∉ filter (λ m, m ≠ n) ns) as He1.
  { rewrite list_elem_of_filter. by intros [_ ?]. }
  unfold insertAfter. rewrite decide_False by done. unfold bind at 1.
  rewrite Hrun. unfold bind at 1, get_next. rewrite Hnde1.
  unfold bind, set_next. rewrite Hnd1. simpl.
  rewrite lookup_with_next_ne, Hnde1 by done.
  eexists. split; [done|]. simpl. split; [|split; [|split; [|split]]].
  - unfold is_list. simpl. apply lseg_with_next; [done|].
    apply lseg_with_next; [apply not_elem_of_filter_ne|done].
  - unfold next_at. rewrite (lookup_with_next_eq _ _ _ nde); [done|].
    by rewrite lookup_with_next_ne.
  - unfold next_at. rewrite lookup_with_next_ne by done.
    by rewrite (lookup_with_next_eq _ _ _ nd1), Hnde.
  - intros m. by rewrite !value_at_with_next.
  - intros m Hm Hmn Hme. rewrite !lookup_with_next_ne by done. by apply Hframe.
Qed.

(** No chain that ends in [null] passes through a node whose [next] is the
    node itself. *)
Lemma lseg_no_self_loop h p ms n :
  next_at h n = Some (Some n) → lseg h p None ms → n ∉ ms.
Proof.
  intros Hloop Hl (a & b & ->)%list_elem_of_split.
  apply lseg_app in Hl as (r & _ & Hb). pose proof Hb as (-> & nd & Hnd & Hb').
  unfold next_at in Hloop. rewrite Hnd in Hloop. injection Hloop as Hloop.
  rewrite Hloop in Hb'. pose proof (lseg_inj _ _ _ _ Hb Hb') as Heq.
  apply (f_equal length) in Heq. simpl in Heq. lia.
Qed.

(** X1: [remove(n)] of a node of the list leaves the nodes before it and
    the nodes behind it, in their order; the head is the first of them; no
    value changes, and of the [next] links only the one of the node before
    [n] and the one of [n] change. *)
Theorem remove_member_unlinks fuel s a n b :
  is_list s (a ++ n :: b) → (length a < fuel)%nat →
  ∃ s', remove fuel n s = Return () s' ∧
        is_list s' (a ++ b) ∧
        head s' = hd_error (a ++ b) ∧
        (∀ m, value_at (heap s') m = value_at (heap s) m) ∧
        (∀ m, m ≠ n → last a ≠ Some m → heap s' !! m = heap s !! m).
Proof.
  intros Hl Hf.
  destruct (remove_member fuel s a n b) as (s' & Hrun & Hl' & _ & Hval & Hframe);
    [done..|].
  exists s'. split; [done|]. split; [done|]. split; [|done].
  by apply lseg_start in Hl'.
Qed.

(** X2: [setHead(n)] makes [n] the head and keeps the other nodes behind it
    in their order, for a node of the list (a move to the front) and for a
    node outside it; on the empty list the node has to be detached, because
    that branch does not reset [n.next]. *)
Theorem setHead_moves_to_front fuel s ns n :
  is_list s ns → is_Some (heap s !! n) → (ns = [] → detached (heap s) n) →
  (length ns < fuel)%nat →
  ∃ s', setHead fuel n s = Return () s' ∧
        head s' = Some n ∧
        is_list s' (n :: filter (λ m, m ≠ n) ns) ∧
        (∀ m, value_at (heap s') m = value_at (heap s) m).
Proof.
  intros Hl Hnd Hdet Hf. destruct ns as [|k ns].
  - destruct (setHead_fresh fuel s [] n) as (s' & Hrun & Hl' & Hval & _);
      [done|apply not_elem_of_nil|done..|].
    exists s'. split; [done|]. split; [|done]. by destruct Hl' as [? _].
  - pose proof Hl as [Hhead _].
    destruct (remove_spec fuel s (k :: ns) n) as (s1 & Hrun & Hl1 & Hdet1 & Hval1);
      [done..|].
    apply detached_lookup in Hdet1 as (nd1 & Hnd1 & _).
    unfold setHead, bind at 1, get_head. rewrite Hhead.
    unfold bind at 1. rewrite Hrun.
    unfold bind, get_head, set_next, set_head. rewrite Hnd1. simpl.
    eexists. split; [done|]. simpl. split; [done|]. split.
    + unfold is_list. simpl. split; [done|]. eexists.
      split; [by apply lookup_with_next_eq|]. simpl.
      apply lseg_with_next; [apply not_elem_of_filter_ne|done].
    + intros m. by rewrite value_at_with_next.
Qed.

(** X4: [insertAfter(e, n)] with a node [e] that is not in the list raises
    nothing: [n] leaves the list, the rest of the list stays, and [n] is
    linked between [e] and what followed [e], outside the list. *)
Theorem insertAfter_outside_list fuel s ns e n :
  is_list s ns → e ∉ ns → e ≠ n → is_Some (heap s !! e) →
  is_Some (heap s !! n) → (length ns < fuel)%nat →
  ∃ s', insertAfter fuel e n s = Return () s' ∧
        is_list s' (filter (λ m, m ≠ n) ns) ∧
        next_at (heap s') e = Some (Some n) ∧
        next_at (heap s') n = next_at (heap s) e ∧
        (∀ m, value_at (heap s') m = value_at (heap s) m).
Proof.
  intros Hl He Hen Hde Hnd Hf.
  destruct (insertAfter_outside fuel s ns e n) as (s' & ? & ? & ? & ? & ? & _);
    eauto 10.
Qed.

(** X5: two calls [insertAfter(e, n)] with both nodes outside the list
    leave [n.next] pointing at [n] itself: the second call finds [n] behind
    [e] and links [n] to it.  No well-formed list can contain [n] then. *)
Theorem insertAfter_twice_outside_self_loop fuel s ns e n :
  is_list s ns → e ∉ ns → n ∉ ns → e ≠ n → is_Some (heap s !! e) →
  is_Some (heap s !! n) → (length ns < fuel)%nat →
  ∃ s1 s2, insertAfter fuel e n s = Return () s1 ∧
           insertAfter fuel e n s1 = Return () s2 ∧
           next_at (heap s2) n = Some (Some n) ∧
           is_list s2 ns ∧
           (∀ p ms, lseg (heap s2) p None ms → n ∉ ms).
Proof.
  intros Hl He Hn Hen Hde Hnd Hf.
  assert (filter (λ m, m ≠ n) ns = ns) as Hrest.
  { apply filter_all, Forall_forall. by intros m Hm ->. }
  destruct (insertAfter_outside fuel s ns e n) as
    (s1 & Hrun1 & Hl1 & Hnx1 & _ & Hval1 & _); [done..|].
  rewrite Hrest in Hl1.
  destruct (insertAfter_outside fuel s1 ns e n) as
    (s2 & Hrun2 & Hl2 & _ & Hnx2 & _); [done..| | |done|].
  { eapply is_Some_value_at; eauto. }
  { eapply is_Some_value_at; eauto. }
  rewrite Hrest in Hl2. rewrite Hnx1 in Hnx2.
  exists s1, s2. do 4 (split; [done|]).
  intros p ms. by apply lseg_no_self_loop.
Qed.

(** [insertAtPosition] starts with [remove]: it runs as on the store that
    [remove] leaves. *)
Lemma insertAtPosition_after_remove fuel position s ns n :
  is_list s ns → is_Some (heap s !! n) → (length ns < fuel)%nat →
  ∃ s1, remove fuel n s = Return () s1 ∧
        is_list s1 (filter (λ m, m ≠ n) ns) ∧
        detached (heap s1) n ∧
        (∀ m, value_at (heap s1) m = value_at (heap s) m) ∧
        (∀ m, m ∉ ns → m ≠ n → heap s1 !! m = heap s !! m) ∧
        insertAtPosition fuel position n s = insertAtPosition fuel position n s1.
Proof.
  intros Hl Hnd Hf.
  destruct (remove_frame fuel s ns n) as (s1 & Hrun & Hl1 & Hdet & Hval & Hframe);
    [done..|].
  exists s1. do 5 (split; [done|]). unfold insertAtPosition, bind.
  rewrite Hrun, (remove_again _ _ (filter (λ m, m ≠ n) ns)); [done..| |done|].
  - apply not_elem_of_filter_ne.
  - by apply length_filter_ne_lt.
Qed.

(** X6: [insertAtPosition(p, n)] counts positions in the list without [n]:
    for a position up to one past its end, [n] is placed so that [p - 1]
    nodes stand before it; a position of 1 or less (0 and negative numbers
    too) makes [n] the head.  No value changes. *)
Theorem insertAtPosition_inserts_at_index fuel position s ns n :
  is_list s ns → is_Some (heap s !! n) → (length ns < fuel)%nat →
  position ≤ 1 + Z.of_nat (length (filter (λ m, m ≠ n) ns)) →
  ∃ s', insertAtPosition fuel position n s = Return () s' ∧
        is_list s' (take (Z.to_nat (position - 1)) (filter (λ m, m ≠ n) ns) ++
                    n :: drop (Z.to_nat (position - 1)) (filter (λ m, m ≠ n) ns)) ∧
        (position ≤ 1 → head s' = Some n) ∧
        (∀ m, value_at (heap s') m = value_at (heap s) m).
Proof.
  intros Hl Hnd Hf Hp.
  destruct (insertAtPosition_after_remove fuel position s ns n)
    as (s1 & _ & Hl1 & Hdet & Hval & _ & ->); [done..|].
  destruct (insertAtPosition_within fuel position s1 _ n Hl1)
    as (s' & Hrun & Hl' & Hval'); [apply not_elem_of_filter_ne| |done| |].
  { apply detached_lookup in Hdet as (? & ? & _). eauto. }
  { by apply length_filter_ne_lt. }
  exists s'. split; [done|]. split; [done|]. split.
  - intros Hp1. replace (Z.to_nat (position - 1)) with 0%nat in Hl' by lia.
    by destruct Hl' as [? _].
  - intros m. by rewrite Hval'.
Qed.

(** X7: a failing [insertAtPosition(p, n)] has already taken [n] out of the
    list: for a position more than one past the end of the list without
    [n] (when that list is not empty), the call raises the error whose
    message gives [p] and the number of remaining nodes plus one, and the
    store is the one that [remove(n)] leaves. *)
Theorem insertAtPosition_failure_removes_node fuel position s ns n :
  is_list s ns → is_Some (heap s !! n) → (length ns < fuel)%nat →
  filter (λ m, m ≠ n) ns ≠ [] →
  1 + Z.of_nat (length (filter (λ m, m ≠ n) ns)) < position →
  ∃ s', insertAtPosition fuel position n s =
          Throw (Error (range_message position
                          (1 + Z.of_nat (length (filter (λ m, m ≠ n) ns))))) s' ∧
        remove fuel n s = Return () s' ∧
        is_list s' (filter (λ m, m ≠ n) ns) ∧
        detached (heap s') n.
Proof.
  intros Hl Hnd Hf Hne Hp.
  destruct (insertAtPosition_after_remove fuel position s ns n)
    as (s1 & Hrun & Hl1 & Hdet & Hval & _ & ->); [done..|].
  exists s1. split; [|done].
  rewrite (insertAtPosition_beyond _ _ _ _ _ Hl1);
    [|done|apply not_elem_of_filter_ne| |done|by apply length_filter_ne_lt].
  - rewrite with_next_detached by done. by destruct s1.
  - apply detached_lookup in Hdet as (? & ? & _). eauto.
Qed.

(** X8: [insertAtPosition(p, n)] and then [remove(n)], for a position in
    range: the list is the list before the two calls without [n], so for a
    node that was not in the list it is the list before the two calls. *)
Theorem insertAtPosition_remove_roundtrip fuel position s ns n :
  is_list s ns → is_Some (heap s !! n) → (length ns < fuel)%nat →
  position ≤ 1 + Z.of_nat (length (filter (λ m, m ≠ n) ns)) →
  ∃ s1 s2, insertAtPosition fuel position n s = Return () s1 ∧
           remove fuel n s1 = Return () s2 ∧
           is_list s2 (filter (λ m, m ≠ n) ns) ∧
           (n ∉ ns → is_list s2 ns) ∧
           (∀ m, value_at (heap s2) m = value_at (heap s) m).
Proof.
  intros Hl Hnd Hf Hp. set (rest := filter (λ m, m ≠ n) ns) in *.
  destruct (insertAtPosition_after_remove fuel position s ns n)
    as (s0 & _ & Hl0 & Hdet & Hval0 & _ & ->); [done..|]. fold rest in Hl0.
  destruct (insertAtPosition_within fuel position s0 rest n Hl0)
    as (s1 & Hrun & Hl1 & Hval1); [apply not_elem_of_filter_ne| |done| |].
  { apply detached_lookup in Hdet as (? & ? & _). eauto. }
  { by apply length_filter_ne_lt. }
  destruct (remove_member fuel s1 _ n _ Hl1) as (s2 & Hrem & Hl2 & _ & Hval2 & _).
  { pose proof (length_filter (λ m, m ≠ n) ns). fold rest in H.
    rewrite length_take. lia. }
  rewrite take_drop in Hl2.
  exists s1, s2. do 3 (split; [done|]). split.
  - intros Hn. replace ns with rest; [done|].
    apply filter_all, Forall_forall. by intros m Hm ->.
  - intros m. by rewrite Hval2, Hval1.
Qed.

(** X9: for a position of 1 or less, [insertAtPosition(p, n)] does what
    [setHead(n)] does, on a list that is not empty and on the empty list
    for a detached node. *)
Theorem insertAtPosition_first_is_setHead fuel position s ns n :
  is_list s ns → is_Some (heap s !! n) → (ns = [] → detached (heap s) n) →
  (length ns < fuel)%nat → position ≤ 1 →
  ∃ s', insertAtPosition fuel position n s = Return () s' ∧
        setHead fuel n s = Return () s'.
Proof.
  intros Hl Hnd Hdet0 Hf Hp.
  destruct (remove_spec fuel s ns n) as (s1 & Hrun & Hl1 & Hdet & Hval); [done..|].
  pose proof (not_elem_of_filter_ne ns n) as Hn1.
  pose proof (length_filter_ne_lt ns n fuel Hf) as Hf1.
  pose proof (remove_again _ _ _ _ Hl1 Hn1 Hdet Hf1) as Hagain.
  pose proof Hdet as (nd1 & Hnd1 & Hnx1)%detached_lookup.
  assert (insertAtPosition fuel position n s = setHead fuel n s1) as ->.
  { unfold insertAtPosition, bind at 1. rewrite Hrun.
    unfold bind at 1, get_head. unfold bind.
    rewrite (insertAtPosition_scan_within _ _ _ _ _ _ _ Hl1) by lia.
    by rewrite decide_False by lia. }
  destruct ns as [|k ns].
  - unfold is_list in Hl. simpl in Hl.
    rewrite (remove_absent _ _ []) in Hrun;
      [|done|apply not_elem_of_nil|done|done].
    rewrite with_next_detached in Hrun by auto. injection Hrun as <-.
    destruct s as [hd hp]. simpl in *. subst hd. eauto.
  - pose proof Hl as [Hhead _].
    assert (setHead fuel n s =
            Return () (mkStore (Some n) (with_next n (head s1) (heap s1)))) as ->.
    { unfold setHead, bind at 1, get_head. rewrite Hhead. unfold bind at 1.
      rewrite Hrun. unfold bind, get_head, set_next, set_head.
      by rewrite Hnd1. }
    eexists. split; [|done].
    unfold setHead, bind at 1, get_head.
    destruct (head s1) as [k1|] eqn:Hhead1.
    + unfold bind at 1. rewrite Hagain.
      unfold bind, get_head, set_next, set_head. by rewrite Hnd1, Hhead1.
    + unfold set_head. by rewrite with_next_detached.
Qed.

(** X10: [containsNodeWithValue(v)] returns [true] exactly when a node of
    the list has the value [v]. *)
Theorem containsNodeWithValue_iff fuel s ns v :
  is_list s ns → (length ns < fuel)%nat →
  ∃ found, containsNodeWithValue fuel v s = Return found s ∧
           (found = true ↔ ∃ m, m ∈ ns ∧ value_at (heap s) m = Some v).
Proof.
  intros Hl Hf. eexists. split; [by apply containsNodeWithValue_spec|].
  rewrite bool_decide_eq_true. unfold values_of. by rewrite list_elem_of_omap.
Qed.

Lemma removeNodesWithValue_scan_no_match fuel steps v s rest cur :
  lseg (heap s) cur None rest →
  (∀ m, m ∈ rest → value_at (heap s) m ≠ Some v) →
  (length rest < steps)%nat →
  removeNodesWithValue_scan fuel steps v cur s = Return () s.
Proof.
  revert steps cur. induction rest as [|k rest IH]; intros steps cur Hl Hv Hs.
  - simpl in Hl, Hs. subst cur. destruct steps; [lia|]. done.
  - simpl in Hl, Hs. destruct Hl as (-> & nd & Hk & Hr).
    destruct steps; [lia|]. simpl.
    unfold bind at 1, get_next. rewrite Hk.
    unfold bind at 1, get_value. rewrite Hk. unfold bind.
    rewrite decide_False.
    2:{ intros Heq. apply (Hv k); [left|]. unfold value_at. by rewrite Hk, <- Heq. }
    unfold ret. apply IH; [done| |lia]. intros m Hm. apply Hv. by right.
Qed.

Lemma removeNodesWithValue_no_match fuel v s ns :
  is_list s ns → (∀ m, m ∈ ns → value_at (heap s) m ≠ Some v) →
  (length ns < fuel)%nat →
  removeNodesWithValue fuel v s = Return () s.
Proof.
  intros Hl Hv Hf. unfold removeNodesWithValue, bind, get_head.
  by apply (removeNodesWithValue_scan_no_match _ _ _ _ ns).
Qed.

(** X11: when [containsNodeWithValue(v)] returns [false],
    [removeNodesWithValue(v)] changes nothing in the store. *)
Theorem removeNodesWithValue_absent_value fuel s ns v :
  is_list s ns → (length ns < fuel)%nat →
  containsNodeWithValue fuel v s = Return false s →
  removeNodesWithValue fuel v s = Return () s.
Proof.
  intros Hl Hf Hc. rewrite (containsNodeWithValue_spec _ _ ns) in Hc by done.
  injection Hc as Hc. apply bool_decide_eq_false in Hc.
  apply (removeNodesWithValue_no_match _ _ _ ns); [done| |done].
  intros m Hm Hv. apply Hc. unfold values_of. rewrite list_elem_of_omap. eauto.
Qed.

(** X12: [removeNodesWithValue(v)] is idempotent: a second call returns
    with the store that the first call left. *)
Theorem removeNodesWithValue_idempotent fuel s ns v :
  is_list s ns → (length ns < fuel)%nat →
  ∃ s', removeNodesWithValue fuel v s = Return () s' ∧
        removeNodesWithValue fuel v s' = Return () s'.
Proof.
  intros Hl Hf.
  destruct (removeNodesWithValue_spec fuel v s ns) as (s' & Hrun & Hl' & Hval);
    [done..|].
  exists s'. split; [done|].
  apply (removeNodesWithValue_no_match _ _ _ _ Hl').
  - intros m [Hm _]%list_elem_of_filter. by rewrite Hval.
  - pose proof (length_filter (λ m, value_at (heap s) m ≠ Some v) ns). lia.
Qed.

Lemma removeNodesWithValue_scan_frame fuel steps v s pre rest cur :
  is_list s (pre ++ rest) → cur = hd_error rest →
  (length (pre ++ rest) < fuel)%nat → (length rest < steps)%nat →
  ∃ s', removeNodesWithValue_scan fuel steps v cur s = Return () s' ∧
        (∀ m, m ∈ rest → value_at (heap s) m = Some v → detached (heap s') m) ∧
        (∀ m, m ∉ pre ++ rest → heap s' !! m = heap s !! m).
Proof.
  revert steps s pre cur.
  induction rest as [|k rest IH]; intros steps s pre cur Hl -> Hf Hs.
  - destruct steps; [simpl in Hs; lia|]. exists s. split; [done|].
    split; [|done]. by intros m ?%elem_of_nil.
  - simpl in Hs. destruct steps; [lia|].
    pose proof (lseg_NoDup _ _ _ Hl) as Hdup.
    apply NoDup_app in Hdup as (_ & Hpre & Hdup).
    apply NoDup_cons in Hdup as [Hk_rest _].
    assert (k ∉ pre ++ rest) as Hk_out.
    { intros [Hin|Hin]%elem_of_app; [apply (Hpre k Hin); left|done]. }
    pose proof Hl as Hl'.
    unfold is_list in Hl'. apply lseg_app in Hl' as (r & _ & (_ & nd & Hk & Hr)).
    apply lseg_start in Hr. simpl.
    unfold bind at 1, get_next. rewrite Hk.
    unfold bind at 1, get_value. rewrite Hk. unfold bind.
    destruct (decide (value nd = v)) as [Hv|Hv].
    + destruct (remove_member fuel s pre k rest)
        as (s1 & -> & Hl1 & Hdet1 & Hval1 & Hframe1);
        [done|rewrite length_app in Hf; lia|].
      destruct (IH steps s1 pre _ Hl1 Hr) as (s' & -> & Hdet' & Hframe').
      { rewrite length_app in *. simpl in Hf. lia. }
      { lia. }
      exists s'. split; [done|]. split.
      * intros m [->|Hm]%elem_of_cons Hmv.
        -- unfold detached, next_at. by rewrite Hframe'.
        -- apply Hdet'; [done|]. by rewrite Hval1.
      * intros m Hm. apply not_elem_of_app in Hm as [Hm1 Hm2].
        apply not_elem_of_cons in Hm2 as [Hmk Hm2].
        rewrite Hframe' by (by apply not_elem_of_app).
        apply Hframe1; [done|]. by intros ?%last_Some_elem_of.
    + unfold ret.
      assert (pre ++ k :: rest = (pre ++ [k]) ++ rest) as Hsnoc
        by (by rewrite <- app_assoc).
      rewrite Hsnoc in Hl, Hf.
      destruct (IH steps s (pre ++ [k]) _ Hl Hr Hf) as (s' & -> & Hdet' & Hframe').
      { lia. }
      exists s'. split; [done|]. split.
      * intros m [->|Hm]%elem_of_cons Hmv; [|by apply Hdet'].
        unfold value_at in Hmv. rewrite Hk in Hmv. by injection Hmv.
      * intros m Hm. apply Hframe'. by rewrite <- Hsnoc.
Qed.

Lemma removeNodesWithValue_frame fuel s ns v :
  is_list s ns → (length ns < fuel)%nat →
  ∃ s', removeNodesWithValue fuel v s = Return () s' ∧
        (∀ m, m ∈ ns → value_at (heap s) m = Some v → detached (heap s') m) ∧
        (∀ m, m ∉ ns → heap s' !! m = heap s !! m).
Proof.
  intros Hl Hf. unfold removeNodesWithValue, bind, get_head.
  apply (removeNodesWithValue_scan_frame fuel fuel v s [] ns); try done.
  by apply lseg_start in Hl.
Qed.

(** X13: after [removeNodesWithValue(v)] every node of the list that had the
    value [v] is detached, and the nodes that were not in the list are as
    they were. *)
Theorem removeNodesWithValue_detaches_removed fuel s ns v :
  is_list s ns → (length ns < fuel)%nat →
  ∃ s', removeNodesWithValue fuel v s = Return () s' ∧
        (∀ m, m ∈ ns → value_at (heap s) m = Some v → detached (heap s') m) ∧
        (∀ m, m ∉ ns → heap s' !! m = heap s !! m).
Proof. apply removeNodesWithValue_frame. Qed.

(** X14: with a position past 1, [insertAtPosition(p, n)] on a list that has
    no node other than [n] (the empty list, or the list of [n] alone) ends
    in the [TypeError], and the list is empty afterwards: [n] has been
    removed. *)
Theorem insertAtPosition_only_node_TypeError fuel position s ns n :
  is_list s ns → is_Some (heap s !! n) → (length ns < fuel)%nat →
  filter (λ m, m ≠ n) ns = [] → 1 < position →
  ∃ s', insertAtPosition fuel position n s = Throw TypeError s' ∧
        remove fuel n s = Return () s' ∧
        is_list s' [].
Proof.
  intros Hl Hnd Hf Hnil Hp.
  destruct (insertAtPosition_after_remove fuel position s ns n)
    as (s1 & Hrun & Hl1 & Hdet & Hval & _ & ->); [done..|].
  rewrite Hnil in Hl1. exists s1. split; [|done].
  unfold insertAtPosition, bind.
  rewrite (remove_again _ _ []); [|done|apply not_elem_of_nil|done|simpl; lia].
  unfold get_head. unfold is_list in Hl1. simpl in Hl1. rewrite Hl1.
  by rewrite insertAtPosition_scan_null by lia.
Qed.

(** ** The constructor on any sequence of nodes *)

Lemma remove_dups_snoc (l : list loc) (x : loc) :
  remove_dups (l ++ [x]) = filter (λ m, m ≠ x) (remove_dups l) ++ [x].
Proof.
  induction l as [|y l IH]; [done|]. simpl.
  destruct (decide_rel elem_of y (l ++ [x])) as [Hin1|Hout1];
    destruct (decide_rel elem_of y l) as [Hin|Hout]; rewrite IH.
  - done.
  - apply elem_of_app in Hin1 as [?|Hx]; [done|].
    apply list_elem_of_singleton in Hx as ->.
    by rewrite filter_cons_False by (by intros ?).
  - exfalso. apply Hout1, elem_of_app. by left.
  - rewrite filter_cons_True; [done|]. intros ->.
    apply Hout1, elem_of_app. right. left.
Qed.

Lemma last_remove_dups (l : list loc) : last (remove_dups l) = last l.
Proof.
  induction l as [|y l IH]; [done|]. simpl. rewrite last_cons.
  destruct (decide_rel elem_of y l) as [Hin|Hout].
  - rewrite IH. apply list_elem_of_split in Hin as (a & b & ->).
    rewrite last_app. simpl. by destruct (last (y :: b)) eqn:Hlast;
      [|apply last_None in Hlast].
  - by rewrite last_cons, IH.
Qed.

Lemma insertAfter_after_remove fuel s ns e n :
  is_list s ns → e ≠ n → is_Some (heap s !! n) → (length ns < fuel)%nat →
  ∃ s1, is_list s1 (filter (λ m, m ≠ n) ns) ∧
        is_Some (heap s1 !! n) ∧
        (∀ m, value_at (heap s1) m = value_at (heap s) m) ∧
        (∀ m, m ∉ ns → m ≠ n → heap s1 !! m = heap s !! m) ∧
        insertAfter fuel e n s = insertAfter fuel e n s1.
Proof.
  intros Hl Hen Hnd Hf.
  destruct (remove_frame fuel s ns n) as (s1 & Hrun & Hl1 & Hdet & Hval & Hframe);
    [done..|].
  exists s1. split; [done|]. split.
  { apply detached_lookup in Hdet as (? & ? & _). eauto. }
  split; [done|]. split; [done|]. unfold insertAfter. rewrite decide_False by done. unfold bind.
  rewrite Hrun, (remove_again _ _ (filter (λ m, m ≠ n) ns)); [done..| |done|].
  - apply not_elem_of_filter_ne.
  - by apply length_filter_ne_lt.
Qed.

Lemma constructor_loop_any fuel nodes remaining i s :
  (1 ≤ i)%nat → (i + remaining = length nodes)%nat →
  is_list s (remove_dups (take i nodes)) →
  (∀ m, m ∈ nodes → is_Some (heap s !! m)) →
  (length nodes < fuel)%nat →
  ∃ s', constructor_loop fuel nodes remaining i s = Return () s' ∧
        is_list s' (remove_dups nodes) ∧
        (∀ m, value_at (heap s') m = value_at (heap s) m) ∧
        (∀ m, m ∉ nodes → heap s' !! m = heap s !! m).
Proof.
  revert i s.
  induction remaining as [|remaining IH]; intros i s Hi Hlen Hl Halloc Hf.
  - exists s. rewrite take_ge in Hl by lia. done.
  - simpl. unfold bind at 1, get_head.
    destruct (lookup_lt_is_Some_2 nodes (i - 1)) as [a Ha]; [lia|].
    destruct (lookup_lt_is_Some_2 nodes i) as [b Hb]; [lia|].
    pose proof (list_elem_of_lookup_2 _ _ _ Ha) as Ha_in.
    pose proof (list_elem_of_lookup_2 _ _ _ Hb) as Hb_in.
    assert (take i nodes = take (i - 1) nodes ++ [a]) as Htake.
    { replace i with (S (i - 1)) at 1 by lia. by apply take_S_r. }
    assert (remove_dups (take i nodes) ⊆ nodes) as Hsub_nodes.
    { intros m. rewrite elem_of_remove_dups. intros (j & Hj & _)%elem_of_take.
      by eapply list_elem_of_lookup_2. }
    assert (last (remove_dups (take i nodes)) = Some a) as Hlast.
    { by rewrite last_remove_dups, Htake, last_snoc. }
    apply last_Some in Hlast as [l' Hl'].
    assert (length (remove_dups (take i nodes)) < fuel)%nat as Hf'.
    { pose proof (NoDup_remove_dups (take i nodes)) as Hnd.
      assert (remove_dups (take i nodes) ⊆ take i nodes) as Hsub.
      { intros m. by rewrite elem_of_remove_dups. }
      pose proof (submseteq_length _ _ (NoDup_submseteq _ _ Hnd Hsub)) as Hle.
      rewrite length_take in Hle. lia. }
    assert (remove_dups (take (S i) nodes) =
            filter (λ m, m ≠ b) (remove_dups (take i nodes)) ++ [b]) as Hnext.
    { by rewrite (take_S_r _ _ b), remove_dups_snoc. }
    destruct (head s) as [k|] eqn:Hhead.
    2:{ unfold is_list in Hl. rewrite Hhead, Hl' in Hl.
        by destruct l'; destruct Hl. }
    rewrite Ha, Hb. unfold bind.
    assert (∃ s1, insertAfter fuel a b s = Return () s1 ∧
                  is_list s1 (remove_dups (take (S i) nodes)) ∧
                  (∀ m, value_at (heap s1) m = value_at (heap s) m) ∧
                  (∀ m, m ∉ nodes → heap s1 !! m = heap s !! m))
      as (s1 & -> & Hl1 & Hval1 & Hframe1).
    { destruct (decide (a = b)) as [<-|Hab].
      - exists s. unfold insertAfter. rewrite decide_True by done.
        split; [done|]. split; [|done]. rewrite Hnext, Hl'.
        pose proof (NoDup_remove_dups (take i nodes)) as Hnd. rewrite Hl' in Hnd.
        apply NoDup_app in Hnd as (_ & Hnd & _).
        rewrite filter_app, filter_cons_False by (by intros ?).
        rewrite filter_all, app_nil_r, <- Hl'; [done|].
        apply Forall_forall. intros m Hm ->. apply (Hnd a Hm). left.
      - destruct (insertAfter_after_remove fuel s _ a b Hl Hab)
          as (s0 & Hl0 & Hnd0 & Hval0 & Hframe0 & ->); [|done|].
        { by apply Halloc. }
        rewrite Hl', filter_app, filter_cons_True in Hl0 by done.
        rewrite filter_nil in Hl0.
        destruct (insertAfter_fresh fuel s0 _ a [] b Hl0)
          as (s1 & Hrun & Hl1 & _ & _ & Hval1 & Hframe1); [|done| |].
        { rewrite <- (filter_nil (λ m, m ≠ b)), <- filter_cons_True by done.
          rewrite <- filter_app. apply not_elem_of_filter_ne. }
        { pose proof (length_filter (λ m, m ≠ b) l').
          rewrite Hl' in Hf'. rewrite length_app in *. simpl in *. lia. }
        exists s1. split; [done|]. split; [|split].
        + rewrite Hnext, Hl', filter_app, filter_cons_True by done.
          rewrite filter_nil, <- app_assoc. done.
        + intros m. by rewrite Hval1.
        + intros m Hm. rewrite Hframe1 by (by intros ->).
          apply Hframe0; [|by intros ->]. intros Hin. by apply Hm, Hsub_nodes. }
    destruct (IH (S i) s1) as (s' & -> & Hl'' & Hval' & Hframe');
      [lia|lia|done|..|done|].
    { intros m Hm. eapply is_Some_value_at; eauto. }
    exists s'. split; [done|]. split; [done|]. split.
    + intros m. by rewrite Hval'.
    + intros m Hm. by rewrite Hframe', Hframe1.
Qed.

Lemma constructor_any fuel s first others :
  head s = None → detached (heap s) first →
  (∀ m, m ∈ others → is_Some (heap s !! m)) →
  (length (first :: others) < fuel)%nat →
  ∃ s', constructor fuel (first :: others) s = Return () s' ∧
        is_list s' (remove_dups (first :: others)) ∧
        (∀ m, value_at (heap s') m = value_at (heap s) m) ∧
        (∀ m, m ∉ first :: others → heap s' !! m = heap s !! m).
Proof.
  intros Hhead (nd & Hnd & Hnx)%detached_lookup Halloc Hf.
  unfold constructor, bind at 1, setHead, bind at 1, get_head.
  rewrite Hhead. unfold set_head.
  destruct (constructor_loop_any fuel (first :: others)
              (length (first :: others) - 1)%nat 1%nat
              (mkStore (Some first) (heap s)))
    as (s' & Hrun & Hl' & Hval' & Hframe');
    [lia|simpl; lia|..|done|by exists s'].
  - unfold is_list. simpl. split; [done|]. exists nd. by rewrite Hnx.
  - intros m [->|Hm]%elem_of_cons; simpl; eauto.
Qed.

(** X15: [new LinkedList(...nodes)] on any sequence of nodes whose first
    node is detached: a node that is given more than once stands where it
    was given last; the other nodes keep their order.  No value changes
    and the nodes that were not given are untouched. *)
Theorem constructor_keeps_last_occurrences fuel s first others :
  head s = None → detached (heap s) first →
  Forall (λ m, is_Some (heap s !! m)) others →
  (length (first :: others) < fuel)%nat →
  ∃ s', constructor fuel (first :: others) s = Return () s' ∧
        is_list s' (remove_dups (first :: others)) ∧
        (∀ m, value_at (heap s') m = value_at (heap s) m) ∧
        (∀ m, m ∉ first :: others → heap s' !! m = heap s !! m).
Proof. rewrite Forall_forall. apply constructor_any. Qed.


(** ** Chains that do not end *)

Lemma toString_scan_segment fuel s seg cur q acc :
  lseg (heap s) cur q seg →
  ∃ acc', toString_scan fuel acc cur s =
          toString_scan (fuel - length seg) acc' q s.
Proof.
  revert fuel cur acc. induction seg as [|k seg IH]; intros fuel cur acc Hl.
  - simpl in Hl. subst cur. exists acc. by rewrite Nat.sub_0_r.
  - simpl in Hl. destruct Hl as (-> & nd & Hk & Hr). destruct fuel; [by exists acc|].
    destruct (IH fuel _ (acc ++ [value nd]) Hr) as (acc' & Heq).
    exists acc'. simpl. unfold bind, get_value, get_next. rewrite Hk. simpl.
    by rewrite Hk.
Qed.

Lemma toString_scan_cycle fuel s n cyc acc :
  lseg (heap s) (Some n) (Some n) (n :: cyc) →
  toString_scan fuel acc (Some n) s = OutOfFuel.
Proof.
  intros Hcyc. revert acc.
  induction fuel as [fuel IH] using lt_wf_ind. intros acc.
  destruct fuel; [done|].
  destruct (toString_scan_segment (S fuel) s _ _ _ acc Hcyc) as (acc' & ->).
  apply IH. simpl. lia.
Qed.

(** X17: when the chain from the head runs into a cycle, [toString()] does
    not return: every bound on the iterations is used up. *)
Theorem toString_cycle_never_returns show fuel s pre n cyc :
  lseg (heap s) (head s) (Some n) pre →
  lseg (heap s) (Some n) (Some n) (n :: cyc) →
  toString show fuel s = OutOfFuel.
Proof.
  intros Hpre Hcyc. unfold toString, bind at 1, get_head. unfold bind.
  destruct (toString_scan_segment fuel s _ _ _ [] Hpre) as (acc' & ->).
  by rewrite (toString_scan_cycle _ _ _ cyc).
Qed.

(** ** Tidy stores *)

Lemma is_list_length_size s ns : is_list s ns → (length ns ≤ size (heap s))%nat.
Proof.
  intros Hl. pose proof (lseg_NoDup _ _ _ Hl) as Hdup.
  rewrite <- (size_list_to_set (C:=gset loc) ns), <- (size_dom (D:=gset loc)) by done.
  apply subseteq_size. intros m Hm%elem_of_list_to_set.
  apply elem_of_dom. by eapply lseg_alloc.
Qed.

Lemma size_heap_values h h' :
  (∀ m, value_at h' m = value_at h m) → size h' = size h.
Proof.
  intros Hv. rewrite <- !(size_dom (D:=gset loc)). f_equal. apply set_eq.
  intros m. rewrite !elem_of_dom. specialize (Hv m). unfold value_at in Hv.
  destruct (h !! m), (h' !! m); naive_solver.
Qed.

(** A step that changes, outside the list, at most the node [n], and that
    leaves [n] detached when [n] is not in the new list, keeps the store
    tidy. *)
Lemma tidy_with_step s s' ns ns' n :
  tidy_with s ns → is_list s' ns' →
  (∀ m, m ∉ ns → m ≠ n → heap s' !! m = heap s !! m) →
  (∀ m, m ∈ ns → m ≠ n → m ∈ ns') →
  (n ∉ ns' → is_Some (heap s' !! n) → detached (heap s') n) →
  tidy_with s' ns'.
Proof.
  intros [Hl Hout] Hl' Hframe Hstay Hn. split; [done|].
  apply map_Forall_lookup. intros m nd' Hm Hm'.
  destruct (decide (m = n)) as [->|Hmn].
  - pose proof (Hn Hm' (ex_intro _ nd' Hm)) as (nd & Hnd & Hnx)%detached_lookup.
    congruence.
  - assert (m ∉ ns) as Hm_out by (intros Hin; by apply Hm', Hstay).
    rewrite Hframe in Hm by done.
    by apply (map_Forall_lookup_1 _ _ _ _ Hout Hm).
Qed.

Lemma setHead_framed fuel s ns n :
  is_list s ns → is_Some (heap s !! n) → (ns = [] → detached (heap s) n) →
  (length ns < fuel)%nat →
  ∃ s', setHead fuel n s = Return () s' ∧
        is_list s' (n :: filter (λ m, m ≠ n) ns) ∧
        (∀ m, value_at (heap s') m = value_at (heap s) m) ∧
        (∀ m, m ∉ ns → m ≠ n → heap s' !! m = heap s !! m).
Proof.
  intros Hl Hnd Hdet Hf. destruct ns as [|k ns].
  - destruct (setHead_fresh fuel s [] n) as (s' & Hrun & Hl' & Hval & Hframe);
      [done|apply not_elem_of_nil|done..|].
    exists s'. do 3 (split; [done|]). intros m _. apply Hframe.
  - pose proof Hl as [Hhead _].
    destruct (remove_frame fuel s (k :: ns) n)
      as (s1 & Hrun & Hl1 & Hdet1 & Hval1 & Hframe1); [done..|].
    apply detached_lookup in Hdet1 as (nd1 & Hnd1 & _).
    unfold setHead, bind at 1, get_head. rewrite Hhead.
    unfold bind at 1. rewrite Hrun.
    unfold bind, get_head, set_next, set_head. rewrite Hnd1. simpl.
    eexists. split; [done|]. simpl. split; [|split].
    + unfold is_list. simpl. split; [done|]. eexists.
      split; [by apply lookup_with_next_eq|]. simpl.
      apply lseg_with_next; [apply not_elem_of_filter_ne|done].
    + intros m. by rewrite value_at_with_next.
    + intros m Hm Hmn. rewrite lookup_with_next_ne by done. by apply Hframe1.
Qed.

Lemma insertAfter_framed fuel s ns e n :
  is_list s ns → e ∈ ns → e ≠ n → is_Some (heap s !! n) →
  (length ns < fuel)%nat →
  ∃ s' a b, insertAfter fuel e n s = Return () s' ∧
            filter (λ m, m ≠ n) ns = a ++ e :: b ∧
            is_list s' (a ++ e :: n :: b) ∧
            (∀ m, value_at (heap s') m = value_at (heap s) m) ∧
            (∀ m, m ∉ ns → m ≠ n → heap s' !! m = heap s !! m).
Proof.
  intros Hl He Hen Hnd Hf.
  destruct (insertAfter_after_remove fuel s ns e n)
    as (s1 & Hl1 & Hnd1 & Hval1 & Hframe1 & ->); [done..|].
  assert (e ∈ filter (λ m, m ≠ n) ns) as He1 by (by apply list_elem_of_filter).
  apply list_elem_of_split in He1 as (a & b & Hsplit).
  pose proof (not_elem_of_filter_ne ns n) as Hn1.
  pose proof (length_filter_ne_lt ns n fuel Hf) as Hf1.
  rewrite Hsplit in Hl1, Hn1, Hf1.
  destruct (insertAfter_fresh fuel s1 a e b n) as
    (s' & Hins & Hl' & _ & _ & Hval' & Hframe'); [done..|].
  exists s', a, b. do 3 (split; [done|]). split.
  - intros m. by rewrite Hval'.
  - intros m Hm Hmn. rewrite Hframe'; [by apply Hframe1|done|].
    by intros ->.
Qed.

Lemma insertAtPosition_within_framed fuel position s ns n :
  is_list s ns → n ∉ ns → is_Some (heap s !! n) →
  position ≤ 1 + Z.of_nat (length ns) → (length ns < fuel)%nat →
  ∃ s', insertAtPosition fuel position n s = Return () s' ∧
        is_list s' (take (Z.to_nat (position - 1)) ns ++ n ::
                    drop (Z.to_nat (position - 1)) ns) ∧
        (∀ m, value_at (heap s') m = value_at (heap s) m) ∧
        (∀ m, m ∉ ns → m ≠ n → heap s' !! m = heap s !! m).
Proof.
  intros Hl Hn [nd Hnd] Hp Hf. unfold insertAtPosition, bind at 1.
  rewrite (remove_absent _ _ ns) by eauto.
  pose proof (remove_absent_list _ _ _ Hl Hn) as Hl1.
  set (s1 := mkStore (head s) (with_next n None (heap s))) in *.
  assert (heap s1 !! n = Some (mkNode (value nd) None)) as Hnd1.
  { by apply lookup_with_next_eq. }
  assert (∀ m, value_at (heap s1) m = value_at (heap s) m) as Hval1.
  { intros m. apply value_at_with_next. }
  assert (∀ m, m ≠ n → heap s1 !! m = heap s !! m) as Hframe1.
  { intros m Hm. by apply lookup_with_next_ne. }
  unfold bind at 1, get_head. unfold bind.
  rewrite (insertAtPosition_scan_within _ _ _ ns) by (done || lia).
  destruct (decide (1 < position)) as [Hlt|Hge].
  - set (j := (Z.to_nat (position - 1) - 1)%nat).
    replace (Z.to_nat (position - 1)) with (S j) by lia.
    destruct (lookup_lt_is_Some_2 ns j) as [e He]; [lia|]. rewrite He.
    pose proof (list_elem_of_lookup_2 _ _ _ He) as He_in.
    pose proof (take_drop_middle _ _ _ He) as Hsplit.
    rewrite <- Hsplit in Hl1, Hn, Hf.
    destruct (insertAfter_fresh fuel s1 _ _ _ n Hl1 Hn) as
      (s' & -> & Hl' & _ & _ & Hval' & Hframe'); [eauto|done|].
    exists s'. split; [done|]. split; [|split].
    + rewrite (take_S_r _ _ e) by done. by rewrite <- app_assoc.
    + intros m. by rewrite Hval'.
    + intros m Hm Hmn. rewrite Hframe'; [by apply Hframe1|done|].
      by intros ->.
  - replace (Z.to_nat (position - 1)) with 0%nat by lia.
    destruct (setHead_fresh fuel s1 ns n) as (s' & -> & Hl' & Hval' & Hframe');
      [done|done|eauto|..|done|].
    { intros _. unfold detached, next_at. by rewrite Hnd1. }
    exists s'. split; [done|]. split; [done|]. split.
    + intros m. by rewrite Hval'.
    + intros m Hm Hmn. rewrite Hframe' by done. by apply Hframe1.
Qed.

(** Every outcome of [insertAtPosition] on a well-formed list. *)
Lemma insertAtPosition_framed fuel position s ns n :
  is_list s ns → is_Some (heap s !! n) → (length ns < fuel)%nat →
  ∃ s' ns', (insertAtPosition fuel position n s = Return () s' ∨
             ∃ err, insertAtPosition fuel position n s = Throw err s') ∧
            is_list s' ns' ∧
            (∀ m, m ∈ ns → m ≠ n → m ∈ ns') ∧
            (n ∉ ns' → detached (heap s') n) ∧
            (∀ m, value_at (heap s') m = value_at (heap s) m) ∧
            (∀ m, m ∉ ns → m ≠ n → heap s' !! m = heap s !! m).
Proof.
  intros Hl Hnd Hf. set (rest := filter (λ m, m ≠ n) ns).
  destruct (insertAtPosition_after_remove fuel position s ns n)
    as (s1 & Hrun & Hl1 & Hdet & Hval & Hframe & Heq); [done..|].
  fold rest in Hl1. rewrite Heq.
  assert (n ∉ rest) as Hn1 by apply not_elem_of_filter_ne.
  assert (length rest < fuel)%nat as Hf1 by (by apply length_filter_ne_lt).
  assert (is_Some (heap s1 !! n)) as Hnd1.
  { apply detached_lookup in Hdet as (? & ? & _). eauto. }
  assert (∀ m, m ∈ ns → m ≠ n → m ∈ rest) as Hstay.
  { intros m ? ?. by apply list_elem_of_filter. }
  destruct (decide (position ≤ 1 + Z.of_nat (length rest))) as [Hp|Hp].
  - destruct (insertAtPosition_within_framed fuel position s1 rest n)
      as (s' & Hins & Hl' & Hval' & Hframe'); [done..|].
    eexists s', _. split; [by left|]. split; [done|]. split; [|split; [|split]].
    + intros m Hm Hmn. specialize (Hstay m Hm Hmn).
      rewrite <- (take_drop (Z.to_nat (position - 1)) rest) in Hstay.
      apply elem_of_app in Hstay as [?|?]; apply elem_of_app; [by left|].
      right. by right.
    + intros Hout. exfalso. apply Hout, elem_of_app. right. left.
    + intros m. by rewrite Hval'.
    + intros m Hm Hmn. rewrite Hframe'; [by apply Hframe| |done].
      intros [_ ?]%list_elem_of_filter. done.
  - assert (insertAtPosition fuel position n s1 = Throw
              (if decide (rest = []) then TypeError
               else Error (range_message position (1 + Z.of_nat (length rest))))
              s1) as ->.
    { destruct (decide (rest = [])) as [Hnil|Hne].
      - unfold insertAtPosition, bind.
        rewrite (remove_again _ _ rest) by done. unfold get_head.
        rewrite Hnil in Hl1, Hp. unfold is_list in Hl1. simpl in Hl1, Hp.
        rewrite Hl1. by rewrite insertAtPosition_scan_null by lia.
      - rewrite (insertAtPosition_beyond _ _ _ rest) by (done || lia).
        rewrite with_next_detached by done. by destruct s1. }
    exists s1, rest. split; [right; eauto|]. done.
Qed.

(** X18: every call of a method that changes the list, on a tidy store and
    with nodes of the store as arguments ([insertAfter] behind a node of
    the list), returns or throws; the store is tidy again, it has the same
    nodes, and no value has changed. *)
Theorem call_keeps_tidy fuel s c :
  tidy s → call_ok s c → (size (heap s) < fuel)%nat →
  ∃ s', (run_call fuel c s = Return () s' ∨
         ∃ err, run_call fuel c s = Throw err s') ∧
        tidy s' ∧
        size (heap s') = size (heap s) ∧
        (∀ m, value_at (heap s') m = value_at (heap s) m).
Proof.
  intros (ns & Htidy) Hok Hsize. pose proof Htidy as [Hl Hout].
  assert (length ns < fuel)%nat as Hf.
  { pose proof (is_list_length_size _ _ Hl). lia. }
  assert (∀ n, is_Some (heap s !! n) → ns = [] → detached (heap s) n) as Hdet0.
  { intros n [nd Hnd] ->. unfold detached, next_at. rewrite Hnd. simpl.
    f_equal. apply (map_Forall_lookup_1 _ _ _ _ Hout Hnd), not_elem_of_nil. }
  cut (∃ s', (run_call fuel c s = Return () s' ∨
              ∃ err, run_call fuel c s = Throw err s') ∧
             tidy s' ∧ (∀ m, value_at (heap s') m = value_at (heap s) m)).
  { intros (s' & ? & ? & Hval). exists s'. do 2 (split; [done|]).
    split; [by apply size_heap_values|done]. }
  destruct c as [n|e n|position n|n|v]; simpl in Hok |- *.
  - destruct (setHead_framed fuel s ns n) as (s' & Hrun & Hl' & Hval & Hframe);
      [by auto..|].
    exists s'. split; [by left|]. split; [|done]. eexists.
    apply (tidy_with_step s s' ns _ n); [done..| |].
    + intros m Hm Hmn. right. by apply list_elem_of_filter.
    + intros Hn. exfalso. apply Hn. left.
  - destruct Hok as [He Hnd]. apply (reachable_lseg _ _ _ _ Hl) in He.
    destruct (decide (e = n)) as [->|Hen].
    + exists s. unfold insertAfter. rewrite decide_True by done.
      split; [by left|]. split; [by exists ns|done].
    + destruct (insertAfter_framed fuel s ns e n)
        as (s' & a & b & Hrun & Hsplit & Hl' & Hval & Hframe); [done..|].
      exists s'. split; [by left|]. split; [|done]. eexists.
      apply (tidy_with_step s s' ns _ n); [done..| |].
      * intros m Hm Hmn.
        assert (m ∈ a ++ e :: b) as Hin.
        { rewrite <- Hsplit. by apply list_elem_of_filter. }
        apply elem_of_app in Hin as [?|[->|?]%elem_of_cons]; apply elem_of_app;
          [by left|right; left|right; right; by right].
      * intros Hn. exfalso. apply Hn, elem_of_app. right. right. left.
  - destruct (insertAtPosition_framed fuel position s ns n)
      as (s' & ns' & Hrun & Hl' & Hstay & Hdet & Hval & Hframe); [done..|].
    exists s'. split; [done|]. split; [|done]. exists ns'.
    apply (tidy_with_step s s' ns _ n); auto.
  - destruct (remove_frame fuel s ns n)
      as (s' & Hrun & Hl' & Hdet & Hval & Hframe); [done..|].
    exists s'. split; [by left|]. split; [|done]. eexists.
    apply (tidy_with_step s s' ns _ n); [done..| |auto].
    intros m Hm Hmn. by apply list_elem_of_filter.
  - destruct (removeNodesWithValue_spec fuel v s ns) as (s' & Hrun & Hl' & Hval);
      [done..|].
    destruct (removeNodesWithValue_frame fuel s ns v)
      as (s'' & Hrun' & Hdet & Hframe); [done..|].
    rewrite Hrun in Hrun'. injection Hrun' as <-.
    exists s'. split; [by left|]. split; [|done]. eexists. split; [done|].
    apply map_Forall_lookup. intros m nd' Hm Hm'.
    destruct (decide (m ∈ ns)) as [Hin|Hnin].
    + assert (value_at (heap s) m = Some v) as Hv.
      { destruct (decide (value_at (heap s) m = Some v)) as [|Hne]; [done|].
        exfalso. apply Hm'. by apply list_elem_of_filter. }
      pose proof (Hdet m Hin Hv) as (nd & Hnd & Hnx)%detached_lookup. congruence.
    + rewrite Hframe in Hm by done.
      by apply (map_Forall_lookup_1 _ _ _ _ Hout Hm).
Qed.

(** X19: a program that starts on a tidy store and makes such calls one
    after the other, going on after a call that threw, ends on a tidy
    store with the same nodes and values. *)
Theorem calls_keep_tidy fuel s cs s' :
  tidy s → (size (heap s) < fuel)%nat → after_calls fuel s cs s' →
  tidy s' ∧ (∀ m, value_at (heap s') m = value_at (heap s) m).
Proof.
  intros Htidy Hsize Hcalls.
  induction Hcalls as [s|s c cs s1 s2 Hok Hrun _ IH|s c cs e s1 s2 Hok Hrun _ IH];
    [done|..];
    destruct (call_keeps_tidy fuel s c Htidy Hok Hsize)
      as (s1' & Hrun' & Htidy1 & Hsize1 & Hval1);
    (assert (s1' = s1) as ->;
     [destruct Hrun' as [Hrun'|[e' Hrun']]; congruence|]);
    (destruct IH as [Htidy2 Hval2]; [done|lia|]);
    (split; [done|]); intros m; by rewrite Hval2.
Qed.

(** X20: [new LinkedList(...nodes)] on a fresh list object and a store in
    which every node is detached leaves a tidy store: the nodes that were
    not given are untouched. *)
Theorem constructor_tidy fuel s nodes :
  head s = None → map_Forall (λ _ nd, next nd = None) (heap s) →
  Forall (λ m, is_Some (heap s !! m)) nodes →
  (length nodes < fuel)%nat →
  ∃ s', constructor fuel nodes s = Return () s' ∧
        tidy_with s' (remove_dups nodes) ∧
        (∀ m, value_at (heap s') m = value_at (heap s) m).
Proof.
  intros Hhead Hall Halloc Hf. rewrite Forall_forall in Halloc.
  destruct nodes as [|first others].
  - exists s. split; [done|]. split; [|done]. split.
    + unfold is_list. by rewrite Hhead.
    + apply map_Forall_lookup. intros m nd Hm _.
      by apply (map_Forall_lookup_1 _ _ _ _ Hall Hm).
  - destruct (constructor_any fuel s first others)
      as (s' & Hrun & Hl' & Hval & Hframe); [done| | |done|].
    { destruct (Halloc first) as [nd Hnd]; [left|].
      unfold detached, next_at. rewrite Hnd. simpl. f_equal.
      by apply (map_Forall_lookup_1 _ _ _ _ Hall Hnd). }
    { intros m Hm. apply Halloc. by right. }
    exists s'. split; [done|]. split; [|done]. split; [done|].
    apply map_Forall_lookup. intros m nd' Hm Hm'.
    rewrite elem_of_remove_dups in Hm'. rewrite Hframe in Hm by done.
    by apply (map_Forall_lookup_1 _ _ _ _ Hall Hm).
Qed.

End Theory.

Example constructor_foo_bar_baz :
  constructor 10 [foo; bar; baz] empty_list = Return () list_foo_bar_baz.
Proof. vm_compute. reflexivity. Qed.

Example toString_foo_bar_baz :
  toString id 10 list_foo_bar_baz = Return "foo -> bar -> baz" list_foo_bar_baz.
Proof. vm_compute. reflexivity. Qed.

Example is_list_foo_bar_baz : is_list list_foo_bar_baz [foo; bar; baz].
Proof. list_shape. Qed.

(** The test [throws an error when inserting a node beyond the end of a
    list]: the number in the message is the loop counter, one more than the
    length of the list. *)
Example insertAtPosition_99_message :
  insertAtPosition 10 99 qux list_foo_bar_baz =
    Throw (Error "The position 99 extends beyond the end of the list (which is currently 4).")
          list_foo_bar_baz.
Proof. vm_compute. reflexivity. Qed.

(** Numbers as a template literal prints them: small integers in decimal,
    integers above [2^53] with the digits of the double rounded, and
    exponent notation from [10^21] on. *)
Example number_to_string_examples :
  number_to_string <$>
    [0; 4; 99; -1200; 2 ^ 53 - 1; 2 ^ 53 + 1; 2 ^ 64; 10 ^ 20;
     10 ^ 21; 15 * 10 ^ 20; 2 ^ 70; 10 ^ 23; 2 ^ 1024 - 2 ^ 971; 2 ^ 1024] =
  ["0"; "4"; "99"; "-1200"; "9007199254740991"; "9007199254740992";
   "18446744073709552000"; "100000000000000000000";
   "1e+21"; "1.5e+21"; "1.1805916207174113e+21"; "1e+23";
   "1.7976931348623157e+308"; "Infinity"].
Proof. vm_compute. reflexivity. Qed.

(** The same failure for a position that prints in exponent notation. *)
Example insertAtPosition_1e21_message :
  insertAtPosition 10 (10 ^ 21) qux list_foo_bar_baz =
    Throw (Error "The position 1e+21 extends beyond the end of the list (which is currently 4).")
          list_foo_bar_baz.
Proof. vm_compute. reflexivity. Qed.

(** The test [inserts an existing node in the middle of a populated list]. *)
Example insertAtPosition_moves_baz :
  ∃ s', insertAtPosition 10 2 baz list_foo_bar_baz_qux = Return () s' ∧
        toString id 10 s' = Return "foo -> baz -> bar -> qux" s'.
Proof. eexists. split; vm_compute; reflexivity. Qed.

(** On the empty list, a position past 1 ends in the [TypeError] of the
    unguarded read. *)
Example insertAtPosition_empty_list_2 :
  insertAtPosition 10 2 foo empty_list = Throw TypeError empty_list.
Proof. vm_compute. reflexivity. Qed.

(** ** The properties on the stores of the test suite *)

Lemma toString_joins_values_witness :
  is_list list_foo_bar_baz [foo; bar; baz] ∧
  (length [foo; bar; baz] < 10)%nat ∧
  toString id 10 list_foo_bar_baz =
    Return (String.concat " -> "
              (id <$> values_of (heap list_foo_bar_baz) [foo; bar; baz]))
           list_foo_bar_baz ∧
  length (values_of (heap list_foo_bar_baz) [foo; bar; baz]) =
    length [foo; bar; baz] ∧
  ([foo; bar; baz] = [] →
   toString id 10 list_foo_bar_baz = Return "" list_foo_bar_baz).
Proof.
  assert (is_list list_foo_bar_baz [foo; bar; baz]) as Hl by list_shape.
  assert (length [foo; bar; baz] < 10)%nat as Hf by (simpl; lia).
  split; [exact Hl|]. split; [exact Hf|].
  exact (toString_joins_values id 10 list_foo_bar_baz [foo; bar; baz] Hl Hf).
Defined.

Lemma queries_leave_store_unchanged_witness :
  is_list list_foo_bar_baz [foo; bar; baz] ∧
  (length [foo; bar; baz] < 10)%nat ∧
  (∃ str, toString id 10 list_foo_bar_baz = Return str list_foo_bar_baz) ∧
  (∃ found, containsNodeWithValue 10 "bar" list_foo_bar_baz =
              Return found list_foo_bar_baz).
Proof.
  assert (is_list list_foo_bar_baz [foo; bar; baz]) as Hl by list_shape.
  assert (length [foo; bar; baz] < 10)%nat as Hf by (simpl; lia).
  split; [exact Hl|]. split; [exact Hf|].
  exact (queries_leave_store_unchanged id 10 list_foo_bar_baz [foo; bar; baz]
           "bar" Hl Hf).
Defined.

Lemma remove_unreachable_frame_witness :
  is_list list_foo_bar_baz [foo; bar; baz] ∧
  ¬ reachable (heap list_foo_bar_baz) (head list_foo_bar_baz) qux ∧
  is_Some (heap list_foo_bar_baz !! qux) ∧
  ∃ s', remove 10 qux list_foo_bar_baz = Return () s' ∧
        head s' = head list_foo_bar_baz ∧
        (∀ m, m ≠ qux → heap s' !! m = heap list_foo_bar_baz !! m) ∧
        (∀ m, m ∈ [foo; bar; baz] → heap s' !! m = heap list_foo_bar_baz !! m) ∧
        value_at (heap s') qux = value_at (heap list_foo_bar_baz) qux ∧
        next_at (heap s') qux = Some None.
Proof.
  assert (is_list list_foo_bar_baz [foo; bar; baz]) as Hl by list_shape.
  assert (¬ reachable (heap list_foo_bar_baz) (head list_foo_bar_baz) qux) as Hun.
  { rewrite (reachable_lseg _ _ _ _ Hl). compute_done. }
  assert (is_Some (heap list_foo_bar_baz !! qux)) as Hnd by (eexists; reflexivity).
  split; [exact Hl|]. split; [exact Hun|]. split; [exact Hnd|].
  apply (remove_unreachable_frame 10 list_foo_bar_baz [foo; bar; baz] qux Hl Hun Hnd).
  simpl; lia.
Defined.

Lemma remove_detaches_witness :
  is_list list_foo_bar_baz [foo; bar; baz] ∧
  is_Some (heap list_foo_bar_baz !! bar) ∧
  ∃ s', remove 10 bar list_foo_bar_baz = Return () s' ∧
        next_at (heap s') bar = Some None ∧
        ¬ reachable (heap s') (head s') bar.
Proof.
  assert (is_list list_foo_bar_baz [foo; bar; baz]) as Hl by list_shape.
  assert (is_Some (heap list_foo_bar_baz !! bar)) as Hnd by (eexists; reflexivity).
  split; [exact Hl|]. split; [exact Hnd|].
  apply (remove_detaches 10 list_foo_bar_baz [foo; bar; baz] bar Hl Hnd).
  simpl; lia.
Defined.

Lemma remove_idempotent_witness :
  is_list list_foo_bar_baz [foo; bar; baz] ∧
  is_Some (heap list_foo_bar_baz !! bar) ∧
  ∃ s1, remove 10 bar list_foo_bar_baz = Return () s1 ∧
        remove 10 bar s1 = Return () s1.
Proof.
  assert (is_list list_foo_bar_baz [foo; bar; baz]) as Hl by list_shape.
  assert (is_Some (heap list_foo_bar_baz !! bar)) as Hnd by (eexists; reflexivity).
  split; [exact Hl|]. split; [exact Hnd|].
  apply (remove_idempotent 10 list_foo_bar_baz [foo; bar; baz] bar Hl Hnd).
  simpl; lia.
Defined.

Lemma insertAfter_remove_roundtrip_witness :
  is_list list_foo_bar_baz [foo; bar; baz] ∧
  bar ∈ [foo; bar; baz] ∧
  detached (heap list_foo_bar_baz) qux ∧
  (qux ∉ [foo; bar; baz]) ∧
  ∃ str s1 s2,
    toString id 10 list_foo_bar_baz = Return str list_foo_bar_baz ∧
    insertAfter 10 bar qux list_foo_bar_baz = Return () s1 ∧
    remove 10 qux s1 = Return () s2 ∧
    toString id 10 s2 = Return str s2.
Proof.
  assert (is_list list_foo_bar_baz [foo; bar; baz]) as Hl by list_shape.
  assert (bar ∈ [foo; bar; baz]) as He by compute_done.
  assert (detached (heap list_foo_bar_baz) qux) as Hdet by reflexivity.
  assert (qux ∉ [foo; bar; baz]) as Hn by compute_done.
  split; [exact Hl|]. split; [exact He|]. split; [exact Hdet|]. split; [exact Hn|].
  apply (insertAfter_remove_roundtrip id 10 list_foo_bar_baz [foo; bar; baz]
           bar qux Hl He Hdet Hn).
  simpl; lia.
Defined.

Lemma removeNodesWithValue_removes_all_witness :
  is_list list_with_two_bar [foo; bar; baz; qux] ∧
  ∃ s', removeNodesWithValue 10 "bar" list_with_two_bar = Return () s' ∧
        is_list s'
          (filter (λ m, value_at (heap list_with_two_bar) m ≠ Some "bar")
                  [foo; bar; baz; qux]) ∧
        (∀ m, value_at (heap s') m = value_at (heap list_with_two_bar) m) ∧
        containsNodeWithValue 10 "bar" s' = Return false s'.
Proof.
  assert (is_list list_with_two_bar [foo; bar; baz; qux]) as Hl by list_shape.
  split; [exact Hl|].
  apply (removeNodesWithValue_removes_all 10 list_with_two_bar
           [foo; bar; baz; qux] "bar" Hl).
  simpl; lia.
Defined.

Lemma constructor_builds_list_witness :
  head empty_list = None ∧
  NoDup [foo; bar; baz] ∧
  Forall (detached (heap empty_list)) [foo; bar; baz] ∧
  ∃ s', constructor 10 [foo; bar; baz] empty_list = Return () s' ∧
        head s' = hd_error [foo; bar; baz] ∧
        is_list s' [foo; bar; baz] ∧
        (∀ m, value_at (heap s') m = value_at (heap empty_list) m).
Proof.
  assert (NoDup [foo; bar; baz]) as Hdup by compute_done.
  assert (Forall (detached (heap empty_list)) [foo; bar; baz]) as Hdet
    by (repeat constructor).
  split; [reflexivity|]. split; [exact Hdup|]. split; [exact Hdet|].
  apply (constructor_builds_list 10 empty_list [foo; bar; baz] eq_refl Hdup Hdet).
  simpl; lia.
Defined.

Lemma insertAtPosition_beyond_end_witness :
  is_list list_foo_bar_baz [foo; bar; baz] ∧
  detached (heap list_foo_bar_baz) qux ∧
  (qux ∉ [foo; bar; baz]) ∧
  (1 + Z.of_nat (length [foo; bar; baz]) < 99 →
   ∃ i s', insertAtPosition 10 99 qux list_foo_bar_baz =
             Throw (Error (range_message 99 i)) s') ∧
  (99 = 1 + Z.of_nat (length [foo; bar; baz]) →
   ∃ s', insertAtPosition 10 99 qux list_foo_bar_baz = Return () s' ∧
         is_list s' ([foo; bar; baz] ++ [qux])).
Proof.
  assert (is_list list_foo_bar_baz [foo; bar; baz]) as Hl by list_shape.
  assert (detached (heap list_foo_bar_baz) qux) as Hdet by reflexivity.
  assert (qux ∉ [foo; bar; baz]) as Hn by compute_done.
  split; [exact Hl|]. split; [exact Hdet|]. split; [exact Hn|].
  apply (insertAtPosition_beyond_end 10 list_foo_bar_baz [foo; bar; baz] qux 99
           Hl ltac:(discriminate) Hdet Hn).
  simpl; lia.
Defined.

Lemma insertAtPosition_empty_list_TypeError_witness :
  is_list empty_list [] ∧
  is_Some (heap empty_list !! foo) ∧
  insertAtPosition 10 2 foo empty_list =
    Throw TypeError (mkStore None (with_next foo None (heap empty_list))).
Proof.
  assert (is_Some (heap empty_list !! foo)) as Hnd by (eexists; reflexivity).
  split; [reflexivity|]. split; [exact Hnd|].
  apply (insertAtPosition_empty_list_TypeError 10 empty_list foo 2 eq_refl Hnd);
    lia.
Defined.

(** C1 as the specification states it fails one past the end: on the list
    of four nodes of the test suite, position 5 is greater than the length,
    and the call returns, with the node appended at the tail. *)
Lemma insertAtPosition_one_past_end_returns :
  is_list list_foo_bar_baz_qux [foo; bar; baz; qux] ∧
  detached (heap list_foo_bar_baz_qux) quux ∧
  (quux ∉ [foo; bar; baz; qux]) ∧
  Z.of_nat (length [foo; bar; baz; qux]) < 5 ∧
  (∃ s', insertAtPosition 10 5 quux list_foo_bar_baz_qux = Return () s' ∧
         toString id 10 s' = Return "foo -> bar -> baz -> qux -> quux" s') ∧
  (∀ e s', insertAtPosition 10 5 quux list_foo_bar_baz_qux ≠ Throw e s').
Proof.
  split; [list_shape|]. split; [reflexivity|]. split; [compute_done|].
  split; [simpl; lia|]. split.
  - eexists. split; vm_compute; reflexivity.
  - intros e s'. vm_compute. discriminate.
Qed.

(** ** Further properties on the stores of the test suite *)

Lemma remove_member_unlinks_witness :
  is_list list_foo_bar_baz ([foo] ++ bar :: [baz]) ∧
  ∃ s', remove 10 bar list_foo_bar_baz = Return () s' ∧
        is_list s' ([foo] ++ [baz]) ∧
        head s' = hd_error ([foo] ++ [baz]) ∧
        (∀ m, value_at (heap s') m = value_at (heap list_foo_bar_baz) m) ∧
        (∀ m, m ≠ bar → last [foo] ≠ Some m →
              heap s' !! m = heap list_foo_bar_baz !! m).
Proof.
  assert (is_list list_foo_bar_baz ([foo] ++ bar :: [baz])) as Hl by list_shape.
  split; [exact Hl|].
  apply (remove_member_unlinks 10 list_foo_bar_baz [foo] bar [baz] Hl).
  simpl; lia.
Defined.

Lemma setHead_moves_to_front_witness :
  is_list list_foo_bar_baz [foo; bar; baz] ∧
  is_Some (heap list_foo_bar_baz !! baz) ∧
  ∃ s', setHead 10 baz list_foo_bar_baz = Return () s' ∧
        head s' = Some baz ∧
        is_list s' (baz :: filter (λ m, m ≠ baz) [foo; bar; baz]) ∧
        (∀ m, value_at (heap s') m = value_at (heap list_foo_bar_baz) m).
Proof.
  assert (is_list list_foo_bar_baz [foo; bar; baz]) as Hl by list_shape.
  assert (is_Some (heap list_foo_bar_baz !! baz)) as Hnd by (eexists; reflexivity).
  split; [exact Hl|]. split; [exact Hnd|].
  apply (setHead_moves_to_front 10 list_foo_bar_baz [foo; bar; baz] baz Hl Hnd).
  - discriminate.
  - simpl; lia.
Defined.

Lemma insertAfter_moves_node_witness :
  is_list list_foo_bar_baz_qux [foo; bar; baz; qux] ∧
  qux ∈ [foo; bar; baz; qux] ∧
  qux ≠ bar ∧
  is_Some (heap list_foo_bar_baz_qux !! bar) ∧
  ∃ s' a b, insertAfter 10 qux bar list_foo_bar_baz_qux = Return () s' ∧
            filter (λ m, m ≠ bar) [foo; bar; baz; qux] = a ++ qux :: b ∧
            is_list s' (a ++ qux :: bar :: b) ∧
            (∀ m, value_at (heap s') m = value_at (heap list_foo_bar_baz_qux) m).
Proof.
  assert (is_list list_foo_bar_baz_qux [foo; bar; baz; qux]) as Hl by list_shape.
  assert (qux ∈ [foo; bar; baz; qux]) as He by compute_done.
  assert (qux ≠ bar) as Hne by discriminate.
  assert (is_Some (heap list_foo_bar_baz_qux !! bar)) as Hnd
    by (eexists; reflexivity).
  split; [exact Hl|]. split; [exact He|]. split; [exact Hne|]. split; [exact Hnd|].
  apply (insertAfter_moves_node 10 list_foo_bar_baz_qux [foo; bar; baz; qux]
           qux bar Hl He Hne Hnd).
  simpl; lia.
Defined.

Lemma insertAfter_outside_list_witness :
  is_list list_foo_bar_baz [foo; bar; baz] ∧
  (qux ∉ [foo; bar; baz]) ∧
  qux ≠ bar ∧
  is_Some (heap list_foo_bar_baz !! qux) ∧
  is_Some (heap list_foo_bar_baz !! bar) ∧
  ∃ s', insertAfter 10 qux bar list_foo_bar_baz = Return () s' ∧
        is_list s' (filter (λ m, m ≠ bar) [foo; bar; baz]) ∧
        next_at (heap s') qux = Some (Some bar) ∧
        next_at (heap s') bar = next_at (heap list_foo_bar_baz) qux ∧
        (∀ m, value_at (heap s') m = value_at (heap list_foo_bar_baz) m).
Proof.
  assert (is_list list_foo_bar_baz [foo; bar; baz]) as Hl by list_shape.
  assert (qux ∉ [foo; bar; baz]) as He by compute_done.
  assert (qux ≠ bar) as Hne by discriminate.
  assert (is_Some (heap list_foo_bar_baz !! qux)) as Hde by (eexists; reflexivity).
  assert (is_Some (heap list_foo_bar_baz !! bar)) as Hnd by (eexists; reflexivity).
  split; [exact Hl|]. split; [exact He|]. split; [exact Hne|].
  split; [exact Hde|]. split; [exact Hnd|].
  apply (insertAfter_outside_list 10 list_foo_bar_baz [foo; bar; baz] qux bar
           Hl He Hne Hde Hnd).
  simpl; lia.
Defined.

Lemma insertAfter_twice_outside_self_loop_witness :
  is_list list_foo_bar_baz [foo; bar; baz] ∧
  (qux ∉ [foo; bar; baz]) ∧
  (quux ∉ [foo; bar; baz]) ∧
  qux ≠ quux ∧
  ∃ s1 s2, insertAfter 10 qux quux list_foo_bar_baz = Return () s1 ∧
           insertAfter 10 qux quux s1 = Return () s2 ∧
           next_at (heap s2) quux = Some (Some quux) ∧
           is_list s2 [foo; bar; baz] ∧
           (∀ p ms, lseg (heap s2) p None ms → quux ∉ ms).
Proof.
  assert (is_list list_foo_bar_baz [foo; bar; baz]) as Hl by list_shape.
  assert (qux ∉ [foo; bar; baz]) as He by compute_done.
  assert (quux ∉ [foo; bar; baz]) as Hn by compute_done.
  assert (qux ≠ quux) as Hne by discriminate.
  assert (is_Some (heap list_foo_bar_baz !! qux)) as Hde by (eexists; reflexivity).
  assert (is_Some (heap list_foo_bar_baz !! quux)) as Hnd by (eexists; reflexivity).
  split; [exact Hl|]. split; [exact He|]. split; [exact Hn|]. split; [exact Hne|].
  apply (insertAfter_twice_outside_self_loop 10 list_foo_bar_baz [foo; bar; baz]
           qux quux Hl He Hn Hne Hde Hnd).
  simpl; lia.
Defined.

Lemma insertAtPosition_inserts_at_index_witness :
  is_list list_foo_bar_baz_qux [foo; bar; baz; qux] ∧
  2 ≤ 1 + Z.of_nat (length (filter (λ m, m ≠ baz) [foo; bar; baz; qux])) ∧
  ∃ s', insertAtPosition 10 2 baz list_foo_bar_baz_qux = Return () s' ∧
        is_list s'
          (take (Z.to_nat (2 - 1)) (filter (λ m, m ≠ baz) [foo; bar; baz; qux]) ++
           baz :: drop (Z.to_nat (2 - 1))
                    (filter (λ m, m ≠ baz) [foo; bar; baz; qux])) ∧
        (2 ≤ 1 → head s' = Some baz) ∧
        (∀ m, value_at (heap s') m = value_at (heap list_foo_bar_baz_qux) m).
Proof.
  assert (is_list list_foo_bar_baz_qux [foo; bar; baz; qux]) as Hl by list_shape.
  assert (2 ≤ 1 + Z.of_nat (length (filter (λ m, m ≠ baz) [foo; bar; baz; qux])))
    as Hp by compute_done.
  split; [exact Hl|]. split; [exact Hp|].
  apply (insertAtPosition_inserts_at_index 10 2 list_foo_bar_baz_qux
           [foo; bar; baz; qux] baz Hl); [by eexists|simpl; lia|exact Hp].
Defined.

Lemma insertAtPosition_failure_removes_node_witness :
  is_list list_foo_bar_baz [foo; bar; baz] ∧
  filter (λ m, m ≠ bar) [foo; bar; baz] ≠ [] ∧
  1 + Z.of_nat (length (filter (λ m, m ≠ bar) [foo; bar; baz])) < 99 ∧
  ∃ s', insertAtPosition 10 99 bar list_foo_bar_baz =
          Throw (Error (range_message 99
                   (1 + Z.of_nat (length (filter (λ m, m ≠ bar) [foo; bar; baz])))))
                s' ∧
        remove 10 bar list_foo_bar_baz = Return () s' ∧
        is_list s' (filter (λ m, m ≠ bar) [foo; bar; baz]) ∧
        detached (heap s') bar.
Proof.
  assert (is_list list_foo_bar_baz [foo; bar; baz]) as Hl by list_shape.
  assert (filter (λ m, m ≠ bar) [foo; bar; baz] ≠ []) as Hne by discriminate.
  assert (1 + Z.of_nat (length (filter (λ m, m ≠ bar) [foo; bar; baz])) < 99)
    as Hp by compute_done.
  split; [exact Hl|]. split; [exact Hne|]. split; [exact Hp|].
  apply (insertAtPosition_failure_removes_node 10 99 list_foo_bar_baz
           [foo; bar; baz] bar Hl); [by eexists|simpl; lia|exact Hne|exact Hp].
Defined.

Lemma insertAtPosition_remove_roundtrip_witness :
  is_list list_foo_bar_baz [foo; bar; baz] ∧
  2 ≤ 1 + Z.of_nat (length (filter (λ m, m ≠ qux) [foo; bar; baz])) ∧
  ∃ s1 s2, insertAtPosition 10 2 qux list_foo_bar_baz = Return () s1 ∧
           remove 10 qux s1 = Return () s2 ∧
           is_list s2 (filter (λ m, m ≠ qux) [foo; bar; baz]) ∧
           (qux ∉ [foo; bar; baz] → is_list s2 [foo; bar; baz]) ∧
           (∀ m, value_at (heap s2) m = value_at (heap list_foo_bar_baz) m).
Proof.
  assert (is_list list_foo_bar_baz [foo; bar; baz]) as Hl by list_shape.
  assert (2 ≤ 1 + Z.of_nat (length (filter (λ m, m ≠ qux) [foo; bar; baz])))
    as Hp by compute_done.
  split; [exact Hl|]. split; [exact Hp|].
  apply (insertAtPosition_remove_roundtrip 10 2 list_foo_bar_baz
           [foo; bar; baz] qux Hl); [by eexists|simpl; lia|exact Hp].
Defined.

Lemma insertAtPosition_first_is_setHead_witness :
  is_list list_foo_bar_baz [foo; bar; baz] ∧
  ∃ s', insertAtPosition 10 1 quux list_foo_bar_baz = Return () s' ∧
        setHead 10 quux list_foo_bar_baz = Return () s'.
Proof.
  assert (is_list list_foo_bar_baz [foo; bar; baz]) as Hl by list_shape.
  split; [exact Hl|].
  apply (insertAtPosition_first_is_setHead 10 1 list_foo_bar_baz
           [foo; bar; baz] quux Hl);
    [by eexists|discriminate|simpl; lia|lia].
Defined.

Lemma containsNodeWithValue_iff_witness :
  is_list list_foo_bar_baz [foo; bar; baz] ∧
  ∃ found, containsNodeWithValue 10 "bar" list_foo_bar_baz =
             Return found list_foo_bar_baz ∧
           (found = true ↔
            ∃ m, m ∈ [foo; bar; baz] ∧
                 value_at (heap list_foo_bar_baz) m = Some "bar").
Proof.
  assert (is_list list_foo_bar_baz [foo; bar; baz]) as Hl by list_shape.
  split; [exact Hl|].
  apply (containsNodeWithValue_iff 10 list_foo_bar_baz [foo; bar; baz] "bar" Hl).
  simpl; lia.
Defined.

Lemma removeNodesWithValue_absent_value_witness :
  is_list list_foo_bar_baz [foo; bar; baz] ∧
  containsNodeWithValue 10 "qux" list_foo_bar_baz = Return false list_foo_bar_baz ∧
  removeNodesWithValue 10 "qux" list_foo_bar_baz = Return () list_foo_bar_baz.
Proof.
  assert (is_list list_foo_bar_baz [foo; bar; baz]) as Hl by list_shape.
  assert (containsNodeWithValue 10 "qux" list_foo_bar_baz =
          Return false list_foo_bar_baz) as Hc by (vm_compute; reflexivity).
  split; [exact Hl|]. split; [exact Hc|].
  apply (removeNodesWithValue_absent_value 10 list_foo_bar_baz [foo; bar; baz]
           "qux" Hl); [simpl; lia|exact Hc].
Defined.

Lemma removeNodesWithValue_idempotent_witness :
  is_list list_with_two_bar [foo; bar; baz; qux] ∧
  ∃ s', removeNodesWithValue 10 "bar" list_with_two_bar = Return () s' ∧
        removeNodesWithValue 10 "bar" s' = Return () s'.
Proof.
  assert (is_list list_with_two_bar [foo; bar; baz; qux]) as Hl by list_shape.
  split; [exact Hl|].
  apply (removeNodesWithValue_idempotent 10 list_with_two_bar
           [foo; bar; baz; qux] "bar" Hl).
  simpl; lia.
Defined.

Lemma removeNodesWithValue_detaches_removed_witness :
  is_list list_with_two_bar [foo; bar; baz; qux] ∧
  ∃ s', removeNodesWithValue 10 "bar" list_with_two_bar = Return () s' ∧
        (∀ m, m ∈ [foo; bar; baz; qux] →
              value_at (heap list_with_two_bar) m = Some "bar" →
              detached (heap s') m) ∧
        (∀ m, m ∉ [foo; bar; baz; qux] →
              heap s' !! m = heap list_with_two_bar !! m).
Proof.
  assert (is_list list_with_two_bar [foo; bar; baz; qux]) as Hl by list_shape.
  split; [exact Hl|].
  apply (removeNodesWithValue_detaches_removed 10 list_with_two_bar
           [foo; bar; baz; qux] "bar" Hl).
  simpl; lia.
Defined.

Lemma insertAtPosition_only_node_TypeError_witness :
  is_list list_foo [foo] ∧
  filter (λ m, m ≠ foo) [foo] = [] ∧
  ∃ s', insertAtPosition 10 2 foo list_foo = Throw TypeError s' ∧
        remove 10 foo list_foo = Return () s' ∧
        is_list s' [].
Proof.
  assert (is_list list_foo [foo]) as Hl by list_shape.
  assert (filter (λ m, m ≠ foo) [foo] = []) as Hnil by reflexivity.
  split; [exact Hl|]. split; [exact Hnil|].
  apply (insertAtPosition_only_node_TypeError 10 2 list_foo [foo] foo Hl);
    [by eexists|simpl; lia|exact Hnil|lia].
Defined.

Lemma constructor_keeps_last_occurrences_witness :
  head empty_list = None ∧
  detached (heap empty_list) foo ∧
  Forall (λ m, is_Some (heap empty_list !! m)) [bar; foo; baz; bar] ∧
  ∃ s', constructor 10 (foo :: [bar; foo; baz; bar]) empty_list = Return () s' ∧
        is_list s' (remove_dups (foo :: [bar; foo; baz; bar])) ∧
        (∀ m, value_at (heap s') m = value_at (heap empty_list) m) ∧
        (∀ m, m ∉ foo :: [bar; foo; baz; bar] →
              heap s' !! m = heap empty_list !! m).
Proof.
  assert (Forall (λ m, is_Some (heap empty_list !! m)) [bar; foo; baz; bar])
    as Halloc by (repeat constructor; by eexists).
  split; [reflexivity|]. split; [reflexivity|]. split; [exact Halloc|].
  apply (constructor_keeps_last_occurrences 10 empty_list foo
           [bar; foo; baz; bar] eq_refl eq_refl Halloc).
  simpl; lia.
Defined.


Lemma toString_cycle_never_returns_witness :
  lseg (heap list_in_a_circle) (head list_in_a_circle) (Some foo) [] ∧
  lseg (heap list_in_a_circle) (Some foo) (Some foo) (foo :: [bar]) ∧
  toString id 1000 list_in_a_circle = OutOfFuel.
Proof.
  assert (lseg (heap list_in_a_circle) (head list_in_a_circle) (Some foo) [])
    as Hpre by reflexivity.
  assert (lseg (heap list_in_a_circle) (Some foo) (Some foo) (foo :: [bar]))
    as Hcyc by (simpl; repeat first [reflexivity | split | eexists]).
  split; [exact Hpre|]. split; [exact Hcyc|].
  exact (toString_cycle_never_returns id 1000 list_in_a_circle [] foo [bar]
           Hpre Hcyc).
Defined.

Lemma call_keeps_tidy_witness :
  tidy list_foo_bar_baz ∧
  call_ok list_foo_bar_baz (InsertAtPosition 99 bar) ∧
  (size (heap list_foo_bar_baz) < 10)%nat ∧
  ∃ s', (run_call 10 (InsertAtPosition 99 bar) list_foo_bar_baz = Return () s' ∨
         ∃ err, run_call 10 (InsertAtPosition 99 bar) list_foo_bar_baz =
                  Throw err s') ∧
        tidy s' ∧
        size (heap s') = size (heap list_foo_bar_baz) ∧
        (∀ m, value_at (heap s') m = value_at (heap list_foo_bar_baz) m).
Proof.
  assert (tidy list_foo_bar_baz) as Htidy.
  { exists [foo; bar; baz]. split; [list_shape|compute_done]. }
  assert (call_ok list_foo_bar_baz (InsertAtPosition 99 bar)) as Hok
    by (eexists; reflexivity).
  assert (size (heap list_foo_bar_baz) < 10)%nat as Hsize by compute_done.
  split; [exact Htidy|]. split; [exact Hok|]. split; [exact Hsize|].
  exact (call_keeps_tidy 10 list_foo_bar_baz (InsertAtPosition 99 bar)
           Htidy Hok Hsize).
Defined.

Lemma calls_keep_tidy_witness :
  tidy list_foo_bar_baz ∧
  (size (heap list_foo_bar_baz) < 10)%nat ∧
  ∃ s', after_calls 10 list_foo_bar_baz
          [Remove bar; InsertAtPosition 99 baz; SetHead qux] s' ∧
        tidy s' ∧
        (∀ m, value_at (heap s') m = value_at (heap list_foo_bar_baz) m).
Proof.
  assert (tidy list_foo_bar_baz) as Htidy.
  { exists [foo; bar; baz]. split; [list_shape|compute_done]. }
  assert (size (heap list_foo_bar_baz) < 10)%nat as Hsize by compute_done.
  split; [exact Htidy|]. split; [exact Hsize|].
  eassert (after_calls 10 list_foo_bar_baz
             [Remove bar; InsertAtPosition 99 baz; SetHead qux] _) as Hcalls.
  { eapply after_return; [by eexists|vm_compute; reflexivity|].
    eapply after_throw; [by eexists|vm_compute; reflexivity|].
    eapply after_return; [by eexists|vm_compute; reflexivity|].
    apply after_no_call. }
  eexists. split; [exact Hcalls|].
  exact (calls_keep_tidy 10 list_foo_bar_baz _ _ Htidy Hsize Hcalls).
Defined.

Lemma constructor_tidy_witness :
  head empty_list = None ∧
  map_Forall (λ _ nd, next nd = None) (heap empty_list) ∧
  Forall (λ m, is_Some (heap empty_list !! m)) [foo; bar; foo] ∧
  ∃ s', constructor 10 [foo; bar; foo] empty_list = Return () s' ∧
        tidy_with s' (remove_dups [foo; bar; foo]) ∧
        (∀ m, value_at (heap s') m = value_at (heap empty_list) m).
Proof.
  assert (map_Forall (λ _ nd, next nd = None) (heap empty_list)) as Hall
    by compute_done.
  assert (Forall (λ m, is_Some (heap empty_list !! m)) [foo; bar; foo])
    as Halloc by (repeat constructor; by eexists).
  split; [reflexivity|]. split; [exact Hall|]. split; [exact Halloc|].
  apply (constructor_tidy 10 empty_list [foo; bar; foo] eq_refl Hall Halloc).
  simpl; lia.
Defined.
